(** * Memory Puzzle: the game engine of [project.py]

    A shallow embedding of the classes [Card] and [Game] and of the loop
    of [main] of the pygame memory puzzle, and the properties of its
    selection state machine, flip animation and save/load code.

    Python objects are mutable and shared: [Game.first_selection] and
    [Game.second_selection] hold references to [Card] objects that also sit
    in [Game.cards].  The embedding therefore keeps an object store of cards
    (a list, addressed by position; allocation appends) and the game holds
    addresses into it.  Every method becomes a function on the store and the
    game record.  Drawing, fonts, the clock and [print] are left out: they
    read the state and never write it. *)

From Stdlib Require Import ZArith Lia.

From stdpp Require Import base option list strings numbers.

Open Scope Z_scope.

(** ** Module constants *)

Definition WINDOW_WIDTH : Z := 640.

Definition WINDOW_HEIGHT : Z := 480.

Definition FPS : Z := 30.

Definition CARD_SIZE : Z := 100.

Definition CARD_SPACING : Z := 10.

Definition GRID_SIZE : nat := 4.

Definition ANIMATION_SPEED : Z := 8.

Definition CARD_VALUES : list string :=
  ["1"; "2"; "3"; "4"; "5"; "6"; "7"; "8"]%string.

(** A mouse position, [event.pos]. *)
Abbreviation point := (Z * Z)%type.

(** [pygame.Rect] keeps its corner, and [collidepoint] its argument, as C
    [int]s.  An integer in this range is taken as it is; a larger one is
    reduced or refused ([TypeError]), which the embedding does not follow.
    [Card.init] and [Card.collidepoint] below are those of the source for
    coordinates in this range: the positions [initialize_cards] computes
    are, and so is every position inside a card or inside the window. *)
Definition c_int (z : Z) : bool := (- 2 ^ 31 <=? z) && (z <? 2 ^ 31).

(** ** class Card *)

Module Card.

Record t := mk {
  x : Z;
  y : Z;
  value : string;
  is_flipped : bool;
  is_matched : bool;
  flip_progress : Z  (* 0 to CARD_SIZE *)
}.

(** [Card.__init__]: face down, unmatched, animation at 0.  [self.rect]
    is not a field of its own: it is [pygame.Rect(x, y, CARD_SIZE,
    CARD_SIZE)], never written again, and read by [collidepoint] only.
    Total here; the source's raises when [x] or [y] is beyond a C integer
    (see [c_int]). *)
Definition init (x0 y0 : Z) (v : string) : t :=
  mk x0 y0 v false false 0.

Definition set_is_flipped (b : bool) (c : t) : t :=
  mk (x c) (y c) (value c) b (is_matched c) (flip_progress c).

Definition set_is_matched (b : bool) (c : t) : t :=
  mk (x c) (y c) (value c) (is_flipped c) b (flip_progress c).

Definition set_flip_progress (p : Z) (c : t) : t :=
  mk (x c) (y c) (value c) (is_flipped c) (is_matched c) p.

(** [self.rect.collidepoint(pos)] with
    [rect = pygame.Rect(x, y, CARD_SIZE, CARD_SIZE)]: the left and top
    edges belong to the rectangle, the right and bottom edges do not.
    The comparison is pygame's for a corner and a position that are C
    integers (see [c_int]). *)
Definition collidepoint (c : t) (pos : point) : bool :=
  (x c <=? pos.1) && (pos.1 <? x c + CARD_SIZE) &&
  (y c <=? pos.2) && (pos.2 <? y c + CARD_SIZE).

Definition flip (c : t) : t := set_is_flipped (negb (is_flipped c)) c.

Definition update_animation (c : t) : t :=
  if is_flipped c || is_matched c then
    (* Animate towards fully flipped *)
    if flip_progress c <? CARD_SIZE then
      let p := flip_progress c + ANIMATION_SPEED in
      if CARD_SIZE <? p then set_flip_progress CARD_SIZE c
      else set_flip_progress p c
    else c
  else
    (* Animate towards face down *)
    if 0 <? flip_progress c then
      let p := flip_progress c - ANIMATION_SPEED in
      if p <? 0 then set_flip_progress 0 c
      else set_flip_progress p c
    else c.

End Card.

Global Instance Card_inhabited : Inhabited Card.t :=
  populate (Card.init 0 0 EmptyString).

(** ** The object store *)

Abbreviation addr := nat.

Abbreviation heap := (list Card.t).

(** [Card(x, y, value)]: a new object, at a new address. *)
Definition new_card (x0 y0 : Z) (v : string) (h : heap) : heap * addr :=
  (h ++ [Card.init x0 y0 v], length h).

(** ** The save file

    [json.dump] writes a dictionary with the keys below and [json.load]
    reads one back.  A record is a parsed dictionary whose keys, when
    present, hold values of the types [save_game] writes; [None] is an
    absent key (a [KeyError] on access).  The store holds at most the one
    file [SAVE_FILE]: absent, not parsable as JSON, or a parsed record. *)

Record card_data := mk_card_data {
  cd_x : option Z;
  cd_y : option Z;
  cd_value : option string;
  cd_is_flipped : option bool;
  cd_is_matched : option bool
}.

Record save_data := mk_save_data {
  sd_moves : option Z;
  sd_victory : option bool;
  sd_cards : option (list card_data)
}.

Inductive file :=
  | Unparsable
  | Parsed (d : save_data).

Abbreviation storage := (option file).

(** ** class Game *)

Module Game.

Record t := mk {
  cards : list addr;
  first_selection : option addr;
  second_selection : option addr;
  moves : Z;
  victory : bool;
  wait_time : Z
}.

Definition set_cards (l : list addr) (g : t) : t :=
  mk l (first_selection g) (second_selection g) (moves g) (victory g) (wait_time g).

Definition set_first_selection (s : option addr) (g : t) : t :=
  mk (cards g) s (second_selection g) (moves g) (victory g) (wait_time g).

Definition set_second_selection (s : option addr) (g : t) : t :=
  mk (cards g) (first_selection g) s (moves g) (victory g) (wait_time g).

Definition set_moves (m : Z) (g : t) : t :=
  mk (cards g) (first_selection g) (second_selection g) m (victory g) (wait_time g).

Definition set_victory (b : bool) (g : t) : t :=
  mk (cards g) (first_selection g) (second_selection g) (moves g) b (wait_time g).

Definition set_wait_time (w : Z) (g : t) : t :=
  mk (cards g) (first_selection g) (second_selection g) (moves g) (victory g) w.

(** The state a method runs on: the cards in the store and [self]. *)
Abbreviation state := (heap * t)%type.

(** *** initialize_cards

    [random.shuffle] is outside the program: [values] is the list it
    leaves behind, some permutation of [CARD_VALUES * 2].  The grid size is
    a parameter here so that other grids than the built-in one can be
    stated; [initialize_cards] below is the source's, at [GRID_SIZE]. *)

(** [values.pop()]: the last element; [IndexError] on an empty list. *)
Definition pop (values : list string) : option (string * list string) :=
  match reverse values with
  | [] => None
  | v :: r => Some (v, reverse r)
  end.

(** A [for i in range(n)] loop whose body may raise. *)
Fixpoint for_range {S : Type} (l : list nat) (body : nat -> S -> option S)
    (s : S) : option S :=
  match l with
  | [] => Some s
  | i :: l' =>
      match body i s with
      | Some s' => for_range l' body s'
      | None => None
      end
  end.

Definition grid_extent (grid : nat) : Z :=
  Z.of_nat grid * CARD_SIZE + (Z.of_nat grid - 1) * CARD_SPACING.

Definition start_x (grid : nat) : Z := (WINDOW_WIDTH - grid_extent grid) `div` 2.

Definition start_y (grid : nat) : Z := (WINDOW_HEIGHT - grid_extent grid) `div` 2.

(** The loop state: the shuffled values left, the store, [self.cards]. *)
Abbreviation deal := (list string * heap * list addr)%type.

Definition place_card (grid : nat) (row col : nat) (d : deal) : option deal :=
  let '(values, h, cs) := d in
  let x0 := start_x grid + Z.of_nat col * (CARD_SIZE + CARD_SPACING) in
  let y0 := start_y grid + Z.of_nat row * (CARD_SIZE + CARD_SPACING) in
  match pop values with
  | None => None
  | Some (card_value, values') =>
      let '(h', a) := new_card x0 y0 card_value h in
      Some (values', h', cs ++ [a])
  end.

Definition initialize_cards_grid (grid : nat) (values : list string)
    (h : heap) (g : t) : option state :=
  match
    for_range (seq 0 grid)
      (fun row => for_range (seq 0 grid) (fun col => place_card grid row col))
      (values, h, [])
  with
  | Some (_, h', cs) => Some (h', set_cards cs g)
  | None => None
  end.

Definition initialize_cards : list string -> heap -> t -> option state :=
  initialize_cards_grid GRID_SIZE.

(** [Game.__init__], over a grid size. *)
Definition init_grid (grid : nat) (values : list string) (h : heap) : option state :=
  initialize_cards_grid grid values h (mk [] None None 0 false 0).

(** [Game()]. *)
Definition init : list string -> heap -> option state := init_grid GRID_SIZE.

(** *** Selection *)

Definition reset_selection (g : t) : t :=
  set_second_selection None (set_first_selection None g).

(** [check_victory]: returns at the first card that is not matched. *)
Fixpoint all_matched (h : heap) (l : list addr) : bool :=
  match l with
  | [] => true
  | a :: l' => if negb (Card.is_matched (h !!! a)) then false else all_matched h l'
  end.

Definition check_victory (h : heap) (g : t) : t :=
  if all_matched h (cards g) then set_victory true g else g.

(** The body of the loop of [handle_click] for the card that was hit. *)
Definition select_card (a : addr) (s : state) : state :=
  let '(h, g) := s in
  match first_selection g with
  | None =>
      (alter Card.flip a h, set_first_selection (Some a) g)
  | Some f =>
      if bool_decide (second_selection g = None) && negb (bool_decide (a = f)) then
        let g1 := set_second_selection (Some a) g in
        let h1 := alter Card.flip a h in
        let g2 := set_moves (moves g1 + 1) g1 in
        (* Check for match *)
        if bool_decide (Card.value (h1 !!! f) = Card.value (h1 !!! a)) then
          let h2 := alter (Card.set_is_matched true) f h1 in
          let h3 := alter (Card.set_is_matched true) a h2 in
          (h3, reset_selection (check_victory h3 g2))
        else
          (* Set wait time before flipping back *)
          (h1, set_wait_time FPS g2)
      else (h, g)
  end.

(** [for card in self.cards: if ...: ...; break]. *)
Fixpoint click_loop (pos : point) (l : list addr) (s : state) : state :=
  match l with
  | [] => s
  | a :: l' =>
      let c := s.1 !!! a in
      if Card.collidepoint c pos && negb (Card.is_flipped c) && negb (Card.is_matched c)
      then select_card a s
      else click_loop pos l' s
  end.

Definition handle_click (pos : point) (s : state) : state :=
  if (0 <? wait_time s.2) || victory s.2 then s
  else click_loop pos (cards s.2) s.

(** *** Timing *)

Definition flip_unless_matched (o : option addr) (h : heap) : heap :=
  match o with
  | Some a => if negb (Card.is_matched (h !!! a)) then alter Card.flip a h else h
  | None => h
  end.

Definition flip_back_cards (s : state) : state :=
  let '(h, g) := s in
  if bool_decide (first_selection g <> None) && bool_decide (second_selection g <> None) then
    let h1 := flip_unless_matched (first_selection g) h in
    let h2 := flip_unless_matched (second_selection g) h1 in
    (h2, reset_selection g)
  else (h, g).

Definition update_animations (l : list addr) (h : heap) : heap :=
  foldl (fun h' a => alter Card.update_animation a h') h l.

Definition update (s : state) : state :=
  let '(h, g) := s in
  let h1 := update_animations (cards g) h in
  if 0 <? wait_time g then
    let g1 := set_wait_time (wait_time g - 1) g in
    if wait_time g1 =? 0 then flip_back_cards (h1, g1) else (h1, g1)
  else (h1, g).

(** *** Saving and loading *)

Definition card_record (c : Card.t) : card_data :=
  mk_card_data (Some (Card.x c)) (Some (Card.y c)) (Some (Card.value c))
    (Some (Card.is_flipped c)) (Some (Card.is_matched c)).

Definition save_record (s : state) : save_data :=
  mk_save_data (Some (moves s.2)) (Some (victory s.2))
    (Some ((fun a => card_record (s.1 !!! a)) <$> cards s.2)).

(** [save_game]: the file is replaced; the game is not touched.  A
    failing [open] is outside this model. *)
Definition save_game (s : state) (fs : storage) : storage :=
  Some (Parsed (save_record s)).

(** The loop of [load_game].  A missing key raises inside the [try]:
    the method returns [False] and what was assigned before stays. *)
Fixpoint load_cards (l : list card_data) (s : state) : bool * state :=
  match l with
  | [] => (true, s)
  | d :: l' =>
      let '(h, g) := s in
      match cd_x d, cd_y d, cd_value d with
      | Some x0, Some y0, Some v =>
          let '(h1, a) := new_card x0 y0 v h in
          match cd_is_flipped d with
          | None => (false, (h1, g))
          | Some fl =>
              let h2 := alter (Card.set_is_flipped fl) a h1 in
              match cd_is_matched d with
              | None => (false, (h2, g))
              | Some m =>
                  let h3 := alter (Card.set_is_matched m) a h2 in
                  let h4 :=
                    if fl || m
                    then alter (Card.set_flip_progress CARD_SIZE) a h3
                    else h3 in
                  load_cards l' (h4, set_cards (cards g ++ [a]) g)
              end
          end
      | _, _, _ => (false, (h, g))
      end
  end.

Definition load_game (fs : storage) (s : state) : bool * state :=
  match fs with
  | None => (false, s)                      (* No save file found. *)
  | Some Unparsable => (false, s)           (* json.load raises *)
  | Some (Parsed d) =>
      let '(h, g) := s in
      match sd_moves d with
      | None => (false, (h, g))
      | Some m =>
          let g1 := set_moves m g in
          match sd_victory d with
          | None => (false, (h, g1))
          | Some v =>
              let g2 := set_cards [] (set_victory v g1) in
              match sd_cards d with
              | None => (false, (h, g2))
              | Some l =>
                  match load_cards l (h, g2) with
                  | (true, (h', g')) =>
                      (true, (h', set_wait_time 0 (reset_selection g')))
                  | r => r
                  end
              end
          end
      end
  end.

End Game.

(** ** Runs of the main loop *)

(** What the main loop feeds the game: a left click at a position
    ([MOUSEBUTTONDOWN], button 1) or one pass of the loop ([game.update()]). *)
Inductive event :=
  | Click (pos : point)
  | Tick.

Definition step (e : event) (s : Game.state) : Game.state :=
  match e with
  | Click pos => Game.handle_click pos s
  | Tick => Game.update s
  end.

(** The events are applied from the left. *)
Definition run (es : list event) (s : Game.state) : Game.state :=
  foldl (fun s' e => step e s') s es.

(** ** main

    The events of [pygame.event.get()] that [main] tells apart, the keys it
    knows, and the process: the save file, the game object and the number
    of calls of [random.shuffle] so far.  [shuffle n] is the list the call
    number [n] leaves behind.  [game.draw()], [pygame.display.update()] and
    [CLOCK.tick(FPS)] read the game and write to the display only; they are
    not part of the model. *)

Inductive key := K_r | K_s | K_l | K_other.

Inductive input :=
  | QUIT
  | MOUSEBUTTONDOWN (button : Z) (pos : point)
  | KEYDOWN (k : key)
  | OTHER.

Record process := mk_process {
  disk : storage;
  game : Game.state;
  shuffles : nat
}.

(** Where [main] is: in its loop, left by [sys.exit()], or left by an
    exception of [Game()]. *)
Inductive status :=
  | Running (p : process)
  | Exited (p : process)
  | Crashed.

Section Main.

Variable shuffle : nat -> list string.

(** [game = Game()]: a new object; the cards of the old one stay in the
    store, unreferenced. *)
Definition new_game (p : process) : status :=
  match Game.init (shuffle (shuffles p)) (game p).1 with
  | Some s => Running (mk_process (disk p) s (S (shuffles p)))
  | None => Crashed
  end.

(** The body of [for event in pygame.event.get()]. *)
Definition handle_event (e : input) (p : process) : status :=
  match e with
  | QUIT =>
      (* Save the game before quitting *)
      let d := if negb (Game.victory (game p).2)
               then Game.save_game (game p) (disk p) else disk p in
      Exited (mk_process d (game p) (shuffles p))
  | MOUSEBUTTONDOWN button pos =>
      if button =? 1
      then Running (mk_process (disk p) (Game.handle_click pos (game p))
                      (shuffles p))
      else Running p
  | KEYDOWN K_r => new_game p
  | KEYDOWN K_s =>
      Running (mk_process (Game.save_game (game p) (disk p)) (game p)
                 (shuffles p))
  | KEYDOWN K_l =>
      Running (mk_process (disk p) (Game.load_game (disk p) (game p)).2
                 (shuffles p))
  | KEYDOWN K_other => Running p
  | OTHER => Running p
  end.

Fixpoint handle_events (es : list input) (p : process) : status :=
  match es with
  | [] => Running p
  | e :: es' =>
      match handle_event e p with
      | Running p' => handle_events es' p'
      | st => st
      end
  end.

(** One pass of [while True]: the pending events, then [game.update()]. *)
Definition frame (es : list input) (p : process) : status :=
  match handle_events es p with
  | Running p' =>
      Running (mk_process (disk p') (Game.update (game p')) (shuffles p'))
  | st => st
  end.

(** The passes of the loop for the batches of events [fs], one batch per
    pass. *)
Fixpoint frames (fs : list (list input)) (p : process) : status :=
  match fs with
  | [] => Running p
  | es :: fs' =>
      match frame es p with
      | Running p' => frames fs' p'
      | st => st
      end
  end.

(** [game = Game(); game.load_game()] with the save file [d]; the result of
    [load_game] is dropped. *)
Definition start (d : storage) : status :=
  match Game.init (shuffle 0) [] with
  | Some s => Running (mk_process d (Game.load_game d s).2 1)
  | None => Crashed
  end.

Definition main (d : storage) (fs : list (list input)) : status :=
  match start d with
  | Running p => frames fs p
  | st => st
  end.

End Main.

(** * Vocabulary of the statements *)

(** ** Cards seen from outside *)

(** The cards of a game, as objects, in the order of [self.cards]. *)
Definition tiles (s : Game.state) : list Card.t :=
  (fun a => s.1 !!! a) <$> Game.cards s.2.

(** Where a card lies and what it shows when turned: never written after
    [Card.__init__]. *)
Definition layout (c : Card.t) : Z * Z * string :=
  (Card.x c, Card.y c, Card.value c).

(** The two flags that make up the visibility of a card. *)
Definition face (c : Card.t) : bool * bool :=
  (Card.is_flipped c, Card.is_matched c).

(** Hidden: face down and not matched; such a card can be picked. *)
Definition is_hidden (c : Card.t) : bool :=
  negb (Card.is_flipped c) && negb (Card.is_matched c).

(** Revealed: face up for a comparison, flipped and not (yet) matched. *)
Definition is_revealed (c : Card.t) : bool :=
  Card.is_flipped c && negb (Card.is_matched c).

(** The value the animation of a card runs towards. *)
Definition animation_target (c : Card.t) : Z :=
  if Card.is_flipped c || Card.is_matched c then CARD_SIZE else 0.

(** The test of the loop of [handle_click]. *)
Definition pickable (pos : point) (h : heap) (a : addr) : bool :=
  Card.collidepoint (h !!! a) pos && negb (Card.is_flipped (h !!! a)) &&
  negb (Card.is_matched (h !!! a)).

(** The tile under a tap: the one card of the game whose rectangle holds
    the position. *)
Definition tapped (pos : point) (s : Game.state) (t : addr) : Prop :=
  t ∈ Game.cards s.2 /\
  forall a, a ∈ Game.cards s.2 ->
    (Card.collidepoint (s.1 !!! a) pos = true <-> a = t).

(** No two cards of the game lie under one point. *)
Definition separate (s : Game.state) : Prop :=
  forall a b pos, a ∈ Game.cards s.2 -> b ∈ Game.cards s.2 ->
    Card.collidepoint (s.1 !!! a) pos = true ->
    Card.collidepoint (s.1 !!! b) pos = true -> a = b.

(** The selections, as a list. *)
Definition selections (g : Game.t) : list addr :=
  option_list (Game.first_selection g) ++ option_list (Game.second_selection g).

(** ** Reachable states *)

(** A fresh game: [Game()] over any store, with any outcome of the shuffle. *)
Definition fresh (s : Game.state) : Prop :=
  exists (values : list string) (h0 : heap),
    values ≡ₚ CARD_VALUES ++ CARD_VALUES /\ Game.init values h0 = Some s.

(** What clicks and updates make of a fresh game. *)
Definition reachable (s : Game.state) : Prop :=
  exists (s0 : Game.state) (es : list event), fresh s0 /\ s = run es s0.

(** What stays through every operation: the list of cards, the size of the
    store, and the position and symbol of every card. *)
Definition same_board (s s' : Game.state) : Prop :=
  Game.cards s'.2 = Game.cards s.2 /\
  length s'.1 = length s.1 /\
  forall c, layout (s'.1 !!! c) = layout (s.1 !!! c).

(** The invariant of the selection state machine.  The cards of the game
    are distinct objects of the store; a selection is a card of the game that
    is flipped and not matched; a second selection comes with a first one, a
    different card, and with a running wait counter; the counter runs only
    while there is a second selection; every card that is flipped and not
    matched is one of the selections; matched cards are flipped; [victory]
    is set exactly when all cards are matched; [moves] is not negative and
    the animation progress is within its range. *)
Record consistent (s : Game.state) : Prop := {
  cs_nodup : NoDup (Game.cards s.2);
  cs_bound : forall a, a ∈ Game.cards s.2 -> (a < length s.1)%nat;
  cs_first : forall f, Game.first_selection s.2 = Some f ->
    f ∈ Game.cards s.2 /\ is_revealed (s.1 !!! f) = true;
  cs_second : forall b, Game.second_selection s.2 = Some b ->
    b ∈ Game.cards s.2 /\ is_revealed (s.1 !!! b) = true /\
    0 < Game.wait_time s.2 /\
    exists f, Game.first_selection s.2 = Some f /\ f <> b;
  cs_wait : 0 <= Game.wait_time s.2 <= FPS /\
    (0 < Game.wait_time s.2 -> Game.second_selection s.2 <> None);
  cs_revealed : forall a, a ∈ Game.cards s.2 ->
    is_revealed (s.1 !!! a) = true ->
    Game.first_selection s.2 = Some a \/ Game.second_selection s.2 = Some a;
  cs_matched : forall a, a ∈ Game.cards s.2 ->
    Card.is_matched (s.1 !!! a) = true -> Card.is_flipped (s.1 !!! a) = true;
  cs_victory : Game.victory s.2 = true <->
    forall a, a ∈ Game.cards s.2 -> Card.is_matched (s.1 !!! a) = true;
  cs_moves : 0 <= Game.moves s.2;
  cs_progress : forall a, a ∈ Game.cards s.2 ->
    0 <= Card.flip_progress (s.1 !!! a) <= CARD_SIZE
}.

(** [victory] says what the cards say: it is set exactly when all of them
    are matched. *)
Definition victory_sound (s : Game.state) : Prop :=
  Game.victory s.2 = true <->
  forall a, a ∈ Game.cards s.2 -> Card.is_matched (s.1 !!! a) = true.

(** A card of the game that is flipped, not matched, and is neither
    selection.  Nothing in the game refers to it. *)
Definition stuck (a : addr) (s : Game.state) : Prop :=
  a ∈ Game.cards s.2 /\
  Card.is_flipped (s.1 !!! a) = true /\ Card.is_matched (s.1 !!! a) = false /\
  Game.first_selection s.2 <> Some a /\ Game.second_selection s.2 <> Some a.

(** ** Dealing the cards *)

(** The cells of the grid in the order the two loops visit them. *)
Definition cells (grid : nat) : list (nat * nat) :=
  row ← seq 0 grid; (fun col => (row, col)) <$> seq 0 grid.

(** The card [initialize_cards] puts on a cell. *)
Definition card_at (grid : nat) (cell : nat * nat) (v : string) : Card.t :=
  Card.init (Game.start_x grid + Z.of_nat cell.2 * (CARD_SIZE + CARD_SPACING))
            (Game.start_y grid + Z.of_nat cell.1 * (CARD_SIZE + CARD_SPACING)) v.

(** The cards on the table after dealing: the cells in order, the shuffled
    values from the back. *)
Definition dealt (grid : nat) (values : list string) : list Card.t :=
  zip_with (card_at grid) (cells grid) (reverse values).

(** The two nested loops as one loop over a list of cells. *)
Fixpoint place_cells (grid : nat) (l : list (nat * nat)) (d : Game.deal)
    : option Game.deal :=
  match l with
  | [] => Some d
  | cell :: l' =>
      match Game.place_card grid cell.1 cell.2 d with
      | Some d' => place_cells grid l' d'
      | None => None
      end
  end.

(** ** What a tap does *)

(** The three things a tap can do in a consistent state: nothing; a first
    pick; a second pick, which is compared with the first at once. *)
Inductive click_outcome (pos : point) (s s' : Game.state) : Prop :=
  | click_ignored :
      s' = s -> click_outcome pos s s'
  | click_first (a : addr) :
      a ∈ Game.cards s.2 -> pickable pos s.1 a = true ->
      Game.first_selection s.2 = None ->
      s' = (alter Card.flip a s.1, Game.set_first_selection (Some a) s.2) ->
      click_outcome pos s s'
  | click_second (f a : addr) :
      a ∈ Game.cards s.2 -> pickable pos s.1 a = true ->
      Game.first_selection s.2 = Some f -> Game.second_selection s.2 = None ->
      a <> f ->
      Game.moves s'.2 = Game.moves s.2 + 1 ->
      Card.is_flipped (s'.1 !!! a) = true ->
      (Card.value (s.1 !!! f) = Card.value (s.1 !!! a) /\
       Card.is_matched (s'.1 !!! f) = true /\ Card.is_matched (s'.1 !!! a) = true /\
       Game.first_selection s'.2 = None /\ Game.second_selection s'.2 = None /\
       Game.wait_time s'.2 = Game.wait_time s.2) \/
      (Card.value (s.1 !!! f) <> Card.value (s.1 !!! a) /\
       s' = (alter Card.flip a s.1,
             Game.set_wait_time FPS
               (Game.set_moves (Game.moves s.2 + 1)
                  (Game.set_second_selection (Some a) s.2)))) ->
      click_outcome pos s s'.

(** The tap turned a card of the game face up. *)
Definition turns_up (pos : point) (s : Game.state) : bool :=
  bool_decide
    (Exists (fun a => Card.is_flipped (s.1 !!! a) = false /\
                      Card.is_flipped ((Game.handle_click pos s).1 !!! a) = true)
            (Game.cards s.2)).

(** A first pick: a card is turned up while nothing is selected. *)
Definition first_pick (pos : point) (s : Game.state) : bool :=
  turns_up pos s && bool_decide (Game.first_selection s.2 = None).

(** A second pick: a card is turned up while one is selected. *)
Definition second_pick (pos : point) (s : Game.state) : bool :=
  turns_up pos s && bool_decide (Game.first_selection s.2 <> None).

(** The number of second picks in a run. *)
Fixpoint comparisons (es : list event) (s : Game.state) : nat :=
  match es with
  | [] => 0
  | e :: es' =>
      (match e with
       | Click pos => if second_pick pos s then 1 else 0
       | Tick => 0
       end + comparisons es' (step e s))%nat
  end.

(** ** Save files *)

(** The card [load_game] builds from a record with all five keys. *)
Definition loaded_card (d : card_data) : option Card.t :=
  match cd_x d, cd_y d, cd_value d, cd_is_flipped d, cd_is_matched d with
  | Some x0, Some y0, Some v, Some fl, Some m =>
      Some (Card.mk x0 y0 v fl m (if fl || m then CARD_SIZE else 0))
  | _, _, _, _, _ => None
  end.

Fixpoint loaded_cards (l : list card_data) : option (list Card.t) :=
  match l with
  | [] => Some []
  | d :: l' =>
      match loaded_card d, loaded_cards l' with
      | Some c, Some cs => Some (c :: cs)
      | _, _ => None
      end
  end.

(** All keys of a card record are present. *)
Definition card_complete (d : card_data) : bool :=
  bool_decide (is_Some (cd_x d)) && bool_decide (is_Some (cd_y d)) &&
  bool_decide (is_Some (cd_value d)) &&
  bool_decide (is_Some (cd_is_flipped d)) &&
  bool_decide (is_Some (cd_is_matched d)).

(** All keys [load_game] reads are present. *)
Definition record_complete (d : save_data) : bool :=
  bool_decide (is_Some (sd_moves d)) && bool_decide (is_Some (sd_victory d)) &&
  match sd_cards d with
  | Some l => forallb card_complete l
  | None => false
  end.

(** The coordinates of a card record, where present, are C integers, so
    that [Card(x, y, value)] does not raise on them. *)
Definition card_in_range (d : card_data) : bool :=
  from_option c_int true (cd_x d) && from_option c_int true (cd_y d).


(** A card as it comes back from a save file: the animation is settled. *)
Definition settled (c : Card.t) : Card.t :=
  Card.mk (Card.x c) (Card.y c) (Card.value c) (Card.is_flipped c)
    (Card.is_matched c)
    (if Card.is_flipped c || Card.is_matched c then CARD_SIZE else 0).



(** ** Counting *)

(** The number of clicks in a run. *)
Fixpoint clicks (es : list event) : nat :=
  match es with
  | [] => 0
  | Click _ :: es' => S (clicks es')
  | Tick :: es' => clicks es'
  end.

(** The number of matched cards of a game. *)
Definition matched_count (s : Game.state) : nat :=
  length (filter (fun c => Card.is_matched c = true) (tiles s)).

(** The selections refer to cards with different symbols. *)
Definition mismatched (s : Game.state) : Prop :=
  forall f b, Game.first_selection s.2 = Some f ->
    Game.second_selection s.2 = Some b ->
    Card.value (s.1 !!! f) <> Card.value (s.1 !!! b).

(** ** Cells of the grid *)

(** The row or column of the grid a coordinate falls in: the cards start at
    [start], one every [CARD_SIZE + CARD_SPACING], and the last
    [CARD_SPACING] of each stride is the gap. *)
Definition grid_index (start p : Z) : option nat :=
  let d := p - start in
  let stride := CARD_SIZE + CARD_SPACING in
  if (0 <=? d) && (d `div` stride <? Z.of_nat GRID_SIZE) &&
     (d `mod` stride <? CARD_SIZE)
  then Some (Z.to_nat (d `div` stride))
  else None.

(** The cell of the board under a position, if any. *)
Definition cell_of (pos : point) : option (nat * nat) :=
  match grid_index (Game.start_y GRID_SIZE) pos.2,
        grid_index (Game.start_x GRID_SIZE) pos.1 with
  | Some row, Some col => Some (row, col)
  | _, _ => None
  end.

(** ** Sessions *)

(** A board as [initialize_cards] deals it: the sixteen cells, with some
    shuffle of the eight symbols twice. *)
Definition full_board (s : Game.state) : Prop :=
  exists values : list string,
    values ≡ₚ CARD_VALUES ++ CARD_VALUES /\
    layout <$> tiles s = layout <$> dealt GRID_SIZE values.

(** A status holds a process that satisfies [I] when running, [J] when
    exited; [C] stands for a crash. *)
Definition status_sat (I J : process -> Prop) (C : Prop) (st : status) : Prop :=
  match st with
  | Running q => I q
  | Exited q => J q
  | Crashed => C
  end.

(** What [main] keeps from a first launch: the game has a dealt board and a
    sound [victory], and the save file, if any, was written from such a
    game. *)
Definition session_inv (p : process) : Prop :=
  (full_board (game p) /\ victory_sound (game p)) /\
  (disk p = None \/
   exists s, (full_board s /\ victory_sound s) /\
     disk p = Some (Parsed (Game.save_record s))).

(** ** Examples *)

(** One outcome of the shuffle: the cards are dealt 8, 7, ..., 1, 8, ..., 1,
    row by row. *)
Definition example_values : list string :=
  ["1"; "2"; "3"; "4"; "5"; "6"; "7"; "8";
   "1"; "2"; "3"; "4"; "5"; "6"; "7"; "8"]%string.

Definition example_game : Game.state :=
  Eval vm_compute in
    default ([], Game.mk [] None None 0 false 0) (Game.init example_values []).

(** Two taps of the example game: the first two cards of the first row
    (symbols 8 and 7), and the two cards with the symbol 8. *)
Definition example_mismatch : list event := [Click (105, 25); Click (215, 25)].

Definition example_match : list event := [Click (105, 25); Click (105, 245)].

(** A mismatch and then, after the wait, a match: two comparisons. *)
Definition example_two_moves : list event :=
  example_mismatch ++ replicate 30 Tick ++ example_match.


(** The example game saved with its first card face up, and loaded back. *)
Definition example_saved : save_data :=
  Eval vm_compute in Game.save_record (run [Click (105, 25)] example_game).

Definition example_loaded : Game.state :=
  Eval vm_compute in
    (Game.load_game (Some (Parsed example_saved)) example_game).2.



(** Winning the example game: the eight pairs, one after the other. *)
Definition example_win : list event :=
  [Click (105, 25); Click (105, 245); Click (215, 25); Click (215, 245);
   Click (325, 25); Click (325, 245); Click (435, 25); Click (435, 245);
   Click (105, 135); Click (105, 355); Click (215, 135); Click (215, 355);
   Click (325, 135); Click (325, 355); Click (435, 135); Click (435, 355)].

(** A record with the [is_matched] key of its second card missing. *)
Definition example_broken : save_data :=
  mk_save_data (Some 7) (Some true)
    (Some [mk_card_data (Some 105) (Some 25) (Some "1"%string) (Some true)
             (Some false);
           mk_card_data (Some 215) (Some 25) (Some "1"%string) (Some true)
             None;
           mk_card_data (Some 325) (Some 25) (Some "2"%string) (Some false)
             (Some false)]).

(** One shuffle for every call, and a session with it: the eight pairs are
    found one after the other, one click per pass, then the window is
    closed. *)
Definition example_shuffle (n : nat) : list string := example_values.

Definition left_clicks (es : list event) : list (list input) :=
  (fun e => match e with
            | Click pos => [MOUSEBUTTONDOWN 1 pos]
            | Tick => []
            end) <$> es.

Definition example_session : list (list input) :=
  Eval vm_compute in left_clicks example_win ++ [[QUIT]].

Definition example_won : process :=
  Eval vm_compute in
    match main example_shuffle None example_session with
    | Running q | Exited q => q
    | Crashed => mk_process None example_game 0
    end.

(** A session that ends with one card up. *)
Definition example_pause : list (list input) :=
  [[MOUSEBUTTONDOWN 1 (105, 25)]; [OTHER]].

Definition example_paused : process :=
  Eval vm_compute in
    match main example_shuffle None example_pause with
    | Running q | Exited q => q
    | Crashed => mk_process None example_game 0
    end.

(** ** Proof steps *)

(** Case analysis on the address comparisons left by reads after writes. *)
Ltac card_cases :=
  repeat match goal with
  | |- context [decide (?a = ?b)] => destruct (decide (a = b)); subst
  | H : context [decide (?a = ?b)] |- _ => destruct (decide (a = b)); subst
  end.

(** * Properties *)

(** ** Reading the store after a write *)

(** A write that keeps the projection [p] of a card. *)
Lemma lookup_alter_proj {B : Type} (p : Card.t -> B) (f : Card.t -> Card.t)
    (h : heap) (a c : addr) :
  (forall k, p (f k) = p k) -> p (alter f a h !!! c) = p (h !!! c).
Proof.
  intros Hf. rewrite list_lookup_total_alter.
  case_decide as E; [destruct E as [-> _]; apply Hf | reflexivity].
Qed.

(** A write at one address leaves the other addresses alone. *)
Lemma lookup_alter_other (f : Card.t -> Card.t) (h : heap) (a c : addr) :
  a <> c -> alter f a h !!! c = h !!! c.
Proof. apply list_lookup_total_alter_ne. Qed.

(** A write at an address of the store is seen by the next read there. *)
Lemma lookup_alter_same (f : Card.t -> Card.t) (h : heap) (a : addr) :
  (a < length h)%nat -> alter f a h !!! a = f (h !!! a).
Proof. apply list_lookup_total_alter_eq. Qed.

(** The animation writes [flip_progress] only. *)
Lemma update_animation_face (c : Card.t) :
  face (Card.update_animation c) = face c.
Proof.
  unfold Card.update_animation.
  repeat case_match; reflexivity.
Qed.

Lemma update_animation_layout (c : Card.t) :
  layout (Card.update_animation c) = layout c.
Proof.
  unfold Card.update_animation.
  repeat case_match; reflexivity.
Qed.

Lemma update_animations_length (l : list addr) (h : heap) :
  length (Game.update_animations l h) = length h.
Proof.
  revert h. induction l as [|a l IH]; intros h; simpl; [reflexivity|].
  unfold Game.update_animations in *. simpl. rewrite IH. apply length_alter.
Qed.

Lemma update_animations_proj {B : Type} (p : Card.t -> B) (l : list addr)
    (h : heap) (c : addr) :
  (forall k, p (Card.update_animation k) = p k) ->
  p (Game.update_animations l h !!! c) = p (h !!! c).
Proof.
  intros Hp. revert h. induction l as [|a l IH]; intros h; [reflexivity|].
  unfold Game.update_animations in *. simpl. rewrite IH.
  by apply lookup_alter_proj.
Qed.

Lemma update_animations_face (l : list addr) (h : heap) (c : addr) :
  face (Game.update_animations l h !!! c) = face (h !!! c).
Proof. apply update_animations_proj, update_animation_face. Qed.

Lemma update_animations_layout (l : list addr) (h : heap) (c : addr) :
  layout (Game.update_animations l h !!! c) = layout (h !!! c).
Proof. apply update_animations_proj, update_animation_layout. Qed.

Lemma face_eq (c c' : Card.t) :
  face c' = face c ->
  Card.is_flipped c' = Card.is_flipped c /\ Card.is_matched c' = Card.is_matched c.
Proof. unfold face. intros [= -> ->]. done. Qed.

(** The loop of [check_victory] runs through iff every card is matched. *)
Lemma all_matched_spec (h : heap) (l : list addr) :
  Game.all_matched h l = true <->
  forall a, a ∈ l -> Card.is_matched (h !!! a) = true.
Proof.
  induction l as [|a l IH]; simpl.
  - split; [intros _ a Ha; by apply elem_of_nil in Ha | done].
  - destruct (Card.is_matched (h !!! a)) eqn:E; simpl.
    + rewrite IH. split.
      * intros H c [->|Hc]%elem_of_cons; auto.
      * intros H c Hc. apply H. by right.
    + split; [done|]. intros H. rewrite <- E. apply H. by left.
Qed.

(** ** What no operation touches *)

(** [check_victory] writes [victory] only. *)
Lemma check_victory_cards (h : heap) (g : Game.t) :
  Game.cards (Game.check_victory h g) = Game.cards g.
Proof. unfold Game.check_victory. by destruct (Game.all_matched _ _). Qed.

Lemma check_victory_selection (h : heap) (g : Game.t) :
  Game.first_selection (Game.check_victory h g) = Game.first_selection g /\
  Game.second_selection (Game.check_victory h g) = Game.second_selection g /\
  Game.moves (Game.check_victory h g) = Game.moves g /\
  Game.wait_time (Game.check_victory h g) = Game.wait_time g.
Proof. unfold Game.check_victory. by destruct (Game.all_matched _ _). Qed.

Lemma flip_unless_matched_length (o : option addr) (h : heap) :
  length (Game.flip_unless_matched o h) = length h.
Proof.
  destruct o as [a|]; simpl; [|reflexivity].
  destruct (negb _); [apply length_alter | reflexivity].
Qed.

Lemma flip_unless_matched_layout (o : option addr) (h : heap) (c : addr) :
  layout (Game.flip_unless_matched o h !!! c) = layout (h !!! c).
Proof.
  destruct o as [a|]; simpl; [|reflexivity].
  destruct (negb _); [by apply lookup_alter_proj | reflexivity].
Qed.

Lemma same_board_refl (s : Game.state) : same_board s s.
Proof. done. Qed.

Lemma same_board_trans (s1 s2 s3 : Game.state) :
  same_board s1 s2 -> same_board s2 s3 -> same_board s1 s3.
Proof.
  intros (Hc1 & Hl1 & Hy1) (Hc2 & Hl2 & Hy2). repeat split.
  - by rewrite Hc2.
  - by rewrite Hl2.
  - intros c. by rewrite Hy2.
Qed.

(** No operation replaces the list of cards, grows the store, or moves or
    relabels a card. *)
Lemma select_card_board (a : addr) (s : Game.state) :
  same_board s (Game.select_card a s).
Proof.
  destruct s as [h g]. unfold Game.select_card.
  destruct (Game.first_selection g) as [f|].
  - destruct (_ && _); [|apply same_board_refl].
    destruct (bool_decide _).
    + repeat split; simpl.
      * by rewrite check_victory_cards.
      * by rewrite !length_alter.
      * intros c. by rewrite !lookup_alter_proj.
    + repeat split; simpl; [apply length_alter|].
      intros c. by rewrite lookup_alter_proj.
  - repeat split; simpl; [apply length_alter|].
    intros c. by rewrite lookup_alter_proj.
Qed.

Lemma click_loop_board (pos : point) (l : list addr) (s : Game.state) :
  same_board s (Game.click_loop pos l s).
Proof.
  induction l as [|a l IH]; simpl; [apply same_board_refl|].
  destruct (_ && _); [apply select_card_board | apply IH].
Qed.

Lemma handle_click_board (pos : point) (s : Game.state) :
  same_board s (Game.handle_click pos s).
Proof.
  unfold Game.handle_click.
  destruct (_ || _); [apply same_board_refl | apply click_loop_board].
Qed.

Lemma flip_back_cards_board (s : Game.state) :
  same_board s (Game.flip_back_cards s).
Proof.
  destruct s as [h g]. unfold Game.flip_back_cards.
  destruct (_ && _); [|apply same_board_refl].
  repeat split; simpl.
  - by rewrite !flip_unless_matched_length.
  - intros c. by rewrite !flip_unless_matched_layout.
Qed.

Lemma update_board (s : Game.state) : same_board s (Game.update s).
Proof.
  destruct s as [h g]. unfold Game.update.
  assert (same_board (h, g) (Game.update_animations (Game.cards g) h, g)) as H1.
  { repeat split; simpl; [apply update_animations_length|].
    intros c. apply update_animations_layout. }
  destruct (0 <? Game.wait_time g); [|exact H1].
  destruct (_ =? 0).
  - eapply same_board_trans; [|apply flip_back_cards_board].
    destruct H1 as (? & ? & ?). by repeat split.
  - destruct H1 as (? & ? & ?). by repeat split.
Qed.

Lemma step_board (e : event) (s : Game.state) : same_board s (step e s).
Proof. destruct e; [apply handle_click_board | apply update_board]. Qed.

(** A run of two lists of events is the run of the second after the first. *)
Lemma run_app (es es' : list event) (s : Game.state) :
  run (es ++ es') s = run es' (run es s).
Proof. apply foldl_app. Qed.

Lemma run_board (es : list event) (s : Game.state) : same_board s (run es s).
Proof.
  revert s. induction es as [|e es IH]; intros s; [apply same_board_refl|].
  simpl. eapply same_board_trans; [apply step_board | apply IH].
Qed.

(** ** A card left face up outside the selection *)

(** One unmatched card stops [check_victory]. *)
Lemma all_matched_stuck (a : addr) (h : heap) (l : list addr) :
  a ∈ l -> Card.is_matched (h !!! a) = false -> Game.all_matched h l = false.
Proof.
  intros Hin Hm. destruct (Game.all_matched h l) eqn:E; [|reflexivity].
  rewrite all_matched_spec in E. specialize (E a Hin). congruence.
Qed.

(** A stuck card stays stuck, and [victory] as it is, when another card is
    picked. *)
Lemma select_card_stuck (a t : addr) (s : Game.state) :
  t <> a -> stuck a s ->
  stuck a (Game.select_card t s) /\
  Game.victory (Game.select_card t s).2 = Game.victory s.2.
Proof.
  destruct s as [h g]. intros Hta (Hin & Hfl & Hm & Hf1 & Hf2). simpl in *.
  unfold Game.select_card, stuck.
  destruct (Game.first_selection g) as [f|] eqn:Ef.
  - assert (f <> a) as Hfa by congruence.
    destruct (_ && _); [|simpl; by rewrite Ef].
    destruct (bool_decide _); simpl.
    + rewrite check_victory_cards. simpl.
      rewrite !lookup_alter_other by done.
      unfold Game.check_victory. rewrite all_matched_stuck with (a := a);
        [simpl; repeat split; done | done |].
      by rewrite !lookup_alter_other.
    + rewrite lookup_alter_other by done. rewrite Ef.
      repeat split; try done. congruence.
  - simpl. rewrite lookup_alter_other by done.
    repeat split; try done. congruence.
Qed.

Lemma click_loop_stuck (pos : point) (a : addr) (l : list addr) (s : Game.state) :
  stuck a s ->
  stuck a (Game.click_loop pos l s) /\
  Game.victory (Game.click_loop pos l s).2 = Game.victory s.2.
Proof.
  intros Hs. induction l as [|t l IH]; simpl; [done|].
  destruct (_ && _) eqn:E; [|exact IH].
  apply select_card_stuck; [|done].
  intros ->. destruct Hs as (_ & Hfl & _).
  rewrite Hfl in E. by rewrite andb_false_r in E.
Qed.

Lemma flip_unless_matched_other (o : option addr) (h : heap) (a : addr) :
  o <> Some a -> Game.flip_unless_matched o h !!! a = h !!! a.
Proof.
  intros Ho. destruct o as [f|]; simpl; [|reflexivity].
  destruct (negb _); [|reflexivity].
  apply lookup_alter_other. congruence.
Qed.

Lemma step_stuck (e : event) (a : addr) (s : Game.state) :
  stuck a s ->
  stuck a (step e s) /\ Game.victory (step e s).2 = Game.victory s.2.
Proof.
  intros Hs. destruct e as [pos|]; simpl.
  - unfold Game.handle_click. destruct (_ || _); [done|].
    by apply click_loop_stuck.
  - destruct s as [h g]. destruct Hs as (Hin & Hfl & Hm & Hf1 & Hf2).
    simpl in *. unfold Game.update.
    assert (Card.is_flipped (Game.update_animations (Game.cards g) h !!! a) = true
            /\ Card.is_matched (Game.update_animations (Game.cards g) h !!! a) = false)
      as [Hfl' Hm'].
    { destruct (face_eq _ _ (update_animations_face (Game.cards g) h a))
        as [-> ->]. done. }
    destruct (0 <? Game.wait_time g); [|by repeat split].
    destruct (_ =? 0); [|by repeat split].
    unfold Game.flip_back_cards. simpl.
    destruct (_ && _); [|by repeat split].
    unfold stuck. simpl. rewrite !flip_unless_matched_other by done.
    by repeat split.
Qed.

Lemma run_stuck (es : list event) (a : addr) (s : Game.state) :
  stuck a s ->
  stuck a (run es s) /\ Game.victory (run es s).2 = Game.victory s.2.
Proof.
  revert s. induction es as [|e es IH]; intros s Hs; [done|]. simpl.
  destruct (step_stuck e a s Hs) as [Hs' Hv].
  destruct (IH _ Hs') as [Hs'' Hv']. split; [done | congruence].
Qed.

(** ** The invariant is kept *)

(** Reading after a write inside the store, by cases on the address. *)
Lemma alter_at (f : Card.t -> Card.t) (h : heap) (a c : addr) :
  (a < length h)%nat ->
  alter f a h !!! c = if decide (a = c) then f (h !!! c) else h !!! c.
Proof.
  intros Ha. rewrite list_lookup_total_alter.
  destruct (decide (a = c)) as [->|Hne].
  - by rewrite decide_True.
  - rewrite decide_False; [done|]. by intros [? _].
Qed.

(** From [victory = False], [check_victory] sets the flag iff all cards
    are matched. *)
Lemma check_victory_spec (h : heap) (g : Game.t) :
  Game.victory g = false ->
  (Game.victory (Game.check_victory h g) = true <->
   forall a, a ∈ Game.cards g -> Card.is_matched (h !!! a) = true).
Proof.
  intros Hv. unfold Game.check_victory.
  destruct (Game.all_matched h (Game.cards g)) eqn:E; simpl.
  - rewrite all_matched_spec in E. done.
  - rewrite Hv. split; [done|]. intros H. rewrite <- all_matched_spec in H. congruence.
Qed.

(** Picking a hidden card of the game, with no wait running and no
    victory, keeps the invariant. *)
Lemma select_card_consistent (a : addr) (s : Game.state) :
  consistent s -> a ∈ Game.cards s.2 -> is_hidden (s.1 !!! a) = true ->
  Game.victory s.2 = false -> Game.wait_time s.2 <= 0 ->
  consistent (Game.select_card a s).
Proof.
  destruct s as [h g]. intros [Hnd Hb H1 H2 Hw Hr Hm Hv Hmv Hp] Ha Hh Hvf Hw0.
  simpl in *.
  assert (Game.second_selection g = None) as Hs2.
  { destruct (Game.second_selection g) as [b|] eqn:E; [|done].
    destruct (H2 b eq_refl) as (_ & _ & ? & _). lia. }
  assert (Game.wait_time g = 0) as Hw1 by lia.
  assert ((a < length h)%nat) as Hal by auto.
  unfold is_hidden in Hh. apply andb_true_iff in Hh as [Hhf Hhm].
  apply negb_true_iff in Hhf, Hhm.
  unfold Game.select_card.
  destruct (Game.first_selection g) as [f|] eqn:Ef.
  - destruct (H1 f eq_refl) as [Hfin Hfr].
    assert (f <> a) as Hfa.
    { intros ->. unfold is_revealed in Hfr. rewrite Hhf in Hfr. done. }
    rewrite Hs2. rewrite bool_decide_eq_true_2 by done.
    rewrite (bool_decide_eq_false_2 (a = f)) by done. simpl.
    assert ((f < length h)%nat) as Hfl by auto.
    unfold is_revealed in Hfr. apply andb_true_iff in Hfr as [Hff Hfm].
    apply negb_true_iff in Hfm.
    destruct (bool_decide _) eqn:Hval.
    + (* a match *)
      set (h3 := alter (Card.set_is_matched true) a
                  (alter (Card.set_is_matched true) f (alter Card.flip a h))).
      set (g2 := Game.set_moves _ _).
      pose proof (check_victory_cards h3 g2) as Ec.
      pose proof (check_victory_selection h3 g2) as (_ & _ & Em & Ew).
      pose proof (check_victory_spec h3 g2 Hvf) as Ev.
      assert (forall c, h3 !!! c =
                if decide (a = c) then Card.set_is_matched true (Card.flip (h !!! c))
                else if decide (f = c) then Card.set_is_matched true (h !!! c)
                else h !!! c) as Eh.
      { intros c. unfold h3. rewrite !alter_at by (rewrite ?length_alter; done).
        card_cases; done. }
      assert (length h3 = length h) as El by (unfold h3; by rewrite !length_alter).
      clearbody h3.
      split; simpl; rewrite ?Ec, ?Em, ?Ew; simpl; rewrite ?Ef, ?Hs2.
      * done.
      * intros c Hc. rewrite El. auto.
      * done.
      * done.
      * subst g2; simpl. split; [lia | intros; lia].
      * intros c Hc. rewrite Eh. unfold is_revealed.
        card_cases; simpl; rewrite ?andb_false_r; try done.
        intros Hcr. destruct (Hr c Hc Hcr); congruence.
      * intros c Hc. rewrite Eh. card_cases; simpl; auto.
        by rewrite Hhf.
      * exact Ev.
      * lia.
      * intros c Hc. rewrite Eh. card_cases; simpl; auto.
    + (* no match *)
      assert (forall c, alter Card.flip a h !!! c =
                if decide (a = c) then Card.flip (h !!! c) else h !!! c) as Eh.
      { intros c. by rewrite alter_at. }
      split; simpl; rewrite ?Ef, ?Hs2.
      * done.
      * intros c Hc. rewrite length_alter. auto.
      * intros ? [= <-]. split; [done|].
        rewrite Eh. card_cases; [done|].
        unfold is_revealed. by rewrite Hff, Hfm.
      * intros ? [= <-]. rewrite Eh. card_cases; [|done].
        unfold is_revealed; simpl. rewrite Hhf, Hhm. unfold FPS.
        repeat split; try done. exists f. done.
      * unfold FPS. split; [lia | done].
      * intros c Hc. rewrite Eh. card_cases; [by right|].
        intros Hcr. destruct (Hr c Hc Hcr) as [?|?]; [by left | congruence].
      * intros c Hc. rewrite Eh. card_cases; simpl; [congruence | auto].
      * rewrite Hvf. split; [done|]. intros H. rewrite <- Hvf. apply Hv.
        intros c Hc. specialize (H c Hc). rewrite Eh in H.
        card_cases; simpl in *; auto.
      * lia.
      * intros c Hc. rewrite Eh. card_cases; simpl; auto.
  - (* the first selection *)
    assert (forall c, alter Card.flip a h !!! c =
              if decide (a = c) then Card.flip (h !!! c) else h !!! c) as Eh.
    { intros c. by rewrite alter_at. }
    split; simpl; rewrite ?Ef, ?Hs2.
    + done.
    + intros c Hc. rewrite length_alter. auto.
    + intros ? [= <-]. split; [done|]. rewrite Eh. card_cases; [|done].
      unfold is_revealed; simpl. by rewrite Hhf, Hhm.
    + done.
    + split; [lia|]. lia.
    + intros c Hc. rewrite Eh. card_cases; [by left|].
      intros Hcr. destruct (Hr c Hc Hcr) as [?|?]; congruence.
    + intros c Hc. rewrite Eh. card_cases; simpl; [congruence | auto].
    + rewrite Hvf. split; [done|]. intros H. rewrite <- Hvf. apply Hv.
      intros c Hc. specialize (H c Hc). rewrite Eh in H.
      card_cases; simpl in *; auto.
    + done.
    + intros c Hc. rewrite Eh. card_cases; simpl; auto.
Qed.

Lemma click_loop_consistent (pos : point) (l : list addr) (s : Game.state) :
  consistent s -> l ⊆ Game.cards s.2 ->
  Game.victory s.2 = false -> Game.wait_time s.2 <= 0 ->
  consistent (Game.click_loop pos l s).
Proof.
  intros Hs Hl Hv Hw. induction l as [|a l IH]; simpl; [done|].
  destruct (_ && _) eqn:E.
  - apply select_card_consistent; try done.
    + apply Hl. by left.
    + unfold is_hidden. apply andb_true_iff in E as [E ->].
      apply andb_true_iff in E as [_ ->]. done.
  - apply IH. intros c Hc. apply Hl. by right.
Qed.

Lemma handle_click_consistent (pos : point) (s : Game.state) :
  consistent s -> consistent (Game.handle_click pos s).
Proof.
  intros Hs. unfold Game.handle_click.
  destruct (0 <? Game.wait_time s.2) eqn:Hw; [done|].
  destruct (Game.victory s.2) eqn:Hv; [done|]. simpl.
  apply click_loop_consistent; try done. apply Z.ltb_ge in Hw. lia.
Qed.

(** What one animation step keeps, the loop over all cards keeps. *)
Lemma update_animations_keeps (P : Card.t -> Prop) (l : list addr) (h : heap)
    (a : addr) :
  (forall c, P c -> P (Card.update_animation c)) ->
  P (h !!! a) -> P (Game.update_animations l h !!! a).
Proof.
  intros HP. revert h. induction l as [|b l IH]; intros h Ha; [done|].
  unfold Game.update_animations in *. simpl. apply IH.
  rewrite list_lookup_total_alter. case_decide as E; [|done].
  destruct E as [-> _]. by apply HP.
Qed.

Lemma update_animation_range (c : Card.t) :
  0 <= Card.flip_progress c <= CARD_SIZE ->
  0 <= Card.flip_progress (Card.update_animation c) <= CARD_SIZE.
Proof.
  intros H. unfold Card.update_animation, CARD_SIZE, ANIMATION_SPEED in *.
  repeat case_match; simpl;
    repeat match goal with
           | H : (_ <? _) = true |- _ => apply Z.ltb_lt in H
           | H : (_ <? _) = false |- _ => apply Z.ltb_ge in H
           end; lia.
Qed.

Lemma update_animations_consistent (h : heap) (g : Game.t) :
  consistent (h, g) ->
  consistent (Game.update_animations (Game.cards g) h, g).
Proof.
  intros [Hnd Hb H1 H2 Hw Hr Hm Hv Hmv Hp]. simpl in *.
  pose proof (update_animations_length (Game.cards g) h) as El.
  assert (forall c, Card.is_flipped (Game.update_animations (Game.cards g) h !!! c)
                    = Card.is_flipped (h !!! c)) as Ef.
  { intros c. apply face_eq, update_animations_face. }
  assert (forall c, Card.is_matched (Game.update_animations (Game.cards g) h !!! c)
                    = Card.is_matched (h !!! c)) as Em.
  { intros c. apply face_eq, update_animations_face. }
  assert (forall c, 0 <= Card.flip_progress (h !!! c) <= CARD_SIZE ->
            0 <= Card.flip_progress
                   (Game.update_animations (Game.cards g) h !!! c) <= CARD_SIZE)
    as Ep.
  { intros c Hc.
    by apply update_animations_keeps; [apply update_animation_range|]. }
  set (h1 := Game.update_animations (Game.cards g) h) in *. clearbody h1.
  assert (forall c, is_revealed (h1 !!! c) = is_revealed (h !!! c)) as Er.
  { intros c. unfold is_revealed. by rewrite Ef, Em. }
  split; simpl.
  - done.
  - intros c Hc. rewrite El. auto.
  - intros f Hf. rewrite Er. auto.
  - intros b Hb2. rewrite Er. auto.
  - done.
  - intros c Hc. rewrite Er. auto.
  - intros c Hc. rewrite Ef, Em. auto.
  - rewrite Hv. split; intros H c Hc; specialize (H c Hc);
      rewrite Em in *; done.
  - done.
  - intros c Hc. auto.
Qed.

(** [update] keeps the invariant: the countdown, and the flip back when it
    reaches 0. *)
Lemma update_consistent (s : Game.state) :
  consistent s -> consistent (Game.update s).
Proof.
  destruct s as [h g]. intros Hs%update_animations_consistent.
  unfold Game.update.
  set (h1 := Game.update_animations (Game.cards g) h) in *. clearbody h1.
  destruct Hs as [Hnd Hb H1 H2 Hw Hr Hm Hv Hmv Hp]. simpl in *.
  destruct (0 <? Game.wait_time g) eqn:Hw0; [|by split].
  apply Z.ltb_lt in Hw0.
  destruct Hw as [Hwr Hw2]. specialize (Hw2 Hw0).
  destruct (Game.second_selection g) as [b|] eqn:Eb; [clear Hw2|done].
  destruct (H2 b eq_refl) as (Hbin & Hbr & _ & f & Ef & Hfb).
  destruct (H1 f Ef) as [Hfin Hfr].
  simpl. destruct (Game.wait_time g - 1 =? 0) eqn:Hz.
  - apply Z.eqb_eq in Hz. unfold Game.flip_back_cards. simpl.
    rewrite ?Ef, ?Eb. simpl.
    unfold is_revealed in Hfr, Hbr.
    apply andb_true_iff in Hfr as [Hff Hfm]. apply negb_true_iff in Hfm.
    apply andb_true_iff in Hbr as [Hbf Hbm]. apply negb_true_iff in Hbm.
    rewrite Hfm. simpl. rewrite lookup_alter_other by done. rewrite Hbm. simpl.
    assert (forall c, alter Card.flip b (alter Card.flip f h1) !!! c =
              if decide (b = c) then Card.flip (h1 !!! c)
              else if decide (f = c) then Card.flip (h1 !!! c)
              else h1 !!! c) as Eh.
    { intros c. rewrite !alter_at by (rewrite ?length_alter; auto).
      card_cases; done. }
    split; simpl.
    + done.
    + intros c Hc. rewrite !length_alter. auto.
    + done.
    + done.
    + unfold FPS in *. split; [lia|]. intros; lia.
    + intros c Hc. rewrite Eh. unfold is_revealed.
      card_cases; simpl; rewrite ?Hbf, ?Hff; try done.
      intros Hcr. destruct (Hr c Hc Hcr); congruence.
    + intros c Hc. rewrite Eh. card_cases; simpl; try congruence. auto.
    + rewrite Hv. split; intros H c Hc; specialize (H c Hc);
        rewrite Eh in *; card_cases; simpl in *; done.
    + done.
    + intros c Hc. rewrite Eh. card_cases; simpl; auto.
  - apply Z.eqb_neq in Hz. split; simpl; rewrite ?Ef, ?Eb.
    + done.
    + done.
    + by intros ? [= <-].
    + intros ? [= <-]. repeat split; try done; [lia|]. by exists f.
    + split; [lia|]. done.
    + intros c Hc Hcr.
      destruct (Hr c Hc Hcr) as [?|?]; [left; congruence | by right].
    + done.
    + done.
    + done.
    + done.
Qed.

Lemma step_consistent (e : event) (s : Game.state) :
  consistent s -> consistent (step e s).
Proof.
  destruct e; [apply handle_click_consistent | apply update_consistent].
Qed.

Lemma run_consistent (es : list event) (s : Game.state) :
  consistent s -> consistent (run es s).
Proof.
  revert s. induction es as [|e es IH]; intros s Hs; [done|].
  simpl. by apply IH, step_consistent.
Qed.

(** ** Dealing the cards *)

(** The nested loops of [initialize_cards] are one loop over [cells]. *)
Lemma place_cells_app (grid : nat) (l1 l2 : list (nat * nat)) (d : Game.deal) :
  place_cells grid (l1 ++ l2) d =
  match place_cells grid l1 d with
  | Some d' => place_cells grid l2 d'
  | None => None
  end.
Proof.
  revert d. induction l1 as [|c l1 IH]; intros d; simpl; [done|].
  destruct (Game.place_card grid c.1 c.2 d); [apply IH | done].
Qed.

Lemma for_range_cols (grid row : nat) (cols : list nat) (d : Game.deal) :
  Game.for_range cols (fun col => Game.place_card grid row col) d =
  place_cells grid ((fun col => (row, col)) <$> cols) d.
Proof.
  revert d. induction cols as [|c cols IH]; intros d; simpl; [done|].
  destruct (Game.place_card grid row c d); [apply IH | done].
Qed.

Lemma for_range_rows (grid : nat) (rows cols : list nat) (d : Game.deal) :
  Game.for_range rows
    (fun row => Game.for_range cols (fun col => Game.place_card grid row col)) d =
  place_cells grid (row ← rows; (fun col => (row, col)) <$> cols) d.
Proof.
  revert d. induction rows as [|r rows IH]; intros d; simpl; [done|].
  rewrite place_cells_app, for_range_cols.
  destruct (place_cells grid _ d); [apply IH | done].
Qed.

(** [pop] takes the last element off. *)
Lemma pop_spec (values : list string) :
  match Game.pop values with
  | Some (v, values') => values = values' ++ [v]
  | None => values = []
  end.
Proof.
  unfold Game.pop. destruct (reverse values) as [|v r] eqn:E.
  - rewrite <- (reverse_involutive values), E. done.
  - rewrite <- (reverse_involutive values), E. by rewrite reverse_cons.
Qed.

(** A write to the object allocated last. *)
Lemma alter_last (f : Card.t -> Card.t) (h : heap) (c : Card.t) :
  alter f (length h) (h ++ [c]) = h ++ [f c].
Proof.
  replace (length h) with (length h + 0)%nat by lia.
  by rewrite alter_app_r.
Qed.

(** Dealing on a list of cells: it fails iff the values run out; otherwise
    one new card per cell, with the values taken from the back. *)
Lemma place_cells_spec (grid : nat) (l : list (nat * nat)) (values : list string)
    (h : heap) (cs : list addr) :
  place_cells grid l (values, h, cs) =
  if decide (length l <= length values)%nat then
    Some (take (length values - length l) values,
          h ++ zip_with (card_at grid) l (reverse values),
          cs ++ seq (length h) (length l))
  else None.
Proof.
  revert values h cs. induction l as [|cell l IH]; intros values h cs.
  - cbn [place_cells length]. case_decide; [|lia].
    rewrite Nat.sub_0_r, firstn_all. cbn [zip_with seq]. by rewrite !app_nil_r.
  - cbn [place_cells length]. unfold Game.place_card.
    pose proof (pop_spec values) as Hp.
    destruct (Game.pop values) as [[v values']|].
    + subst values. unfold new_card. rewrite IH.
      rewrite !length_app. cbn [length].
      repeat case_decide; try lia; [|done]. f_equal. f_equal; [f_equal|].
      * rewrite take_app_le by lia. f_equal. lia.
      * rewrite reverse_snoc. cbn [zip_with]. by rewrite <- app_assoc.
      * rewrite <- app_assoc. cbn [app seq]. do 3 f_equal. lia.
    + subst values. cbn [length]. case_decide; [lia | done].
Qed.

Lemma length_grid_cells (rows cols : list nat) :
  length (row ← rows; (fun col => (row, col)) <$> cols) =
  (length rows * length cols)%nat.
Proof.
  induction rows as [|r rows IH]; [done|].
  rewrite bind_cons, length_app, length_fmap, IH. simpl. lia.
Qed.

Lemma length_cells (grid : nat) : length (cells grid) = (grid * grid)%nat.
Proof. unfold cells. by rewrite length_grid_cells, !length_seq. Qed.

Lemma NoDup_cells (grid : nat) : NoDup (cells grid).
Proof.
  unfold cells. apply NoDup_bind.
  - intros r1 r2 cell _ _ [c1 [-> _]]%list_elem_of_fmap [c2 [[= -> _] _]]%list_elem_of_fmap.
    done.
  - intros r _. apply NoDup_fmap_2; [|apply NoDup_seq]. by intros c1 c2 [= ->].
  - apply NoDup_seq.
Qed.

Lemma elem_of_cells (grid : nat) (cell : nat * nat) :
  cell ∈ cells grid <-> (cell.1 < grid)%nat /\ (cell.2 < grid)%nat.
Proof.
  unfold cells. rewrite list_elem_of_bind. split.
  - intros (r & [c [-> Hc]]%list_elem_of_fmap & Hr).
    apply elem_of_seq in Hc, Hr. simpl. lia.
  - intros [Hr Hc]. exists cell.1. split.
    + apply list_elem_of_fmap. exists cell.2. split; [by destruct cell|].
      apply elem_of_seq. lia.
    + apply elem_of_seq. lia.
Qed.

(** [Game()] over a grid: the store and the game it returns. *)
Lemma init_grid_spec (grid : nat) (values : list string) (h : heap) :
  Game.init_grid grid values h =
  if decide (grid * grid <= length values)%nat then
    Some (h ++ dealt grid values,
          Game.mk (seq (length h) (grid * grid)) None None 0 false 0)
  else None.
Proof.
  unfold Game.init_grid, Game.initialize_cards_grid.
  rewrite for_range_rows. fold (cells grid).
  rewrite place_cells_spec, length_cells.
  case_decide; done.
Qed.

(** ** A fresh game *)

(** Reading the objects allocated last, in order. *)
Lemma tiles_of_new_cards (h k : heap) :
  (fun a => (h ++ k) !!! a) <$> seq (length h) (length k) = k.
Proof.
  revert h. induction k as [|c k IH]; intros h; [done|].
  cbn [length seq]. rewrite fmap_cons. f_equal.
  - by rewrite list_lookup_total_middle.
  - specialize (IH (h ++ [c])). rewrite <- app_assoc, length_app in IH.
    cbn [length app] in IH. rewrite Nat.add_1_r in IH. exact IH.
Qed.

Lemma length_dealt (grid : nat) (values : list string) :
  (grid * grid <= length values)%nat ->
  length (dealt grid values) = (grid * grid)%nat.
Proof.
  intros H. unfold dealt. rewrite length_zip_with_l; [apply length_cells|].
  rewrite length_cells, length_reverse. done.
Qed.

(** The cards of a fresh game are the dealt ones, in order. *)
Lemma init_grid_tiles (grid : nat) (values : list string) (h : heap)
    (s : Game.state) :
  Game.init_grid grid values h = Some s ->
  (grid * grid <= length values)%nat /\
  s = (h ++ dealt grid values,
       Game.mk (seq (length h) (grid * grid)) None None 0 false 0) /\
  tiles s = dealt grid values.
Proof.
  rewrite init_grid_spec. case_decide as Hl; [|done]. intros [= <-].
  repeat split; [done|]. unfold tiles. cbn [fst snd Game.cards].
  rewrite <- (length_dealt grid values Hl). apply tiles_of_new_cards.
Qed.

(** Every card of a fresh game sits on its own cell. *)
Lemma init_grid_card (grid : nat) (values : list string) (h : heap)
    (s : Game.state) (a : addr) :
  Game.init_grid grid values h = Some s -> a ∈ Game.cards s.2 ->
  (a < length s.1)%nat /\
  exists i cell v, a = (length h + i)%nat /\ cells grid !! i = Some cell /\
    s.1 !!! a = card_at grid cell v.
Proof.
  intros Hs Ha. destruct (init_grid_tiles _ _ _ _ Hs) as (Hl & -> & _).
  cbn [fst snd Game.cards] in *. apply elem_of_seq in Ha.
  pose proof (length_dealt grid values Hl) as Hd.
  split; [rewrite length_app; lia|].
  exists (a - length h)%nat.
  destruct (lookup_lt_is_Some_2 (dealt grid values) (a - length h)%nat)
    as [c Hc]; [lia|].
  pose proof Hc as Hc'. unfold dealt in Hc'.
  apply lookup_zip_with_Some in Hc' as (cell & v & -> & Hcell & _).
  exists cell, v. repeat split; [lia | done |].
  rewrite lookup_total_app_r by lia.
  by apply list_lookup_total_correct.
Qed.

(** [collidepoint] as inequalities. *)
Lemma collidepoint_spec (c : Card.t) (pos : point) :
  Card.collidepoint c pos = true <->
  Card.x c <= pos.1 < Card.x c + CARD_SIZE /\
  Card.y c <= pos.2 < Card.y c + CARD_SIZE.
Proof.
  unfold Card.collidepoint. rewrite !andb_true_iff.
  rewrite !Z.leb_le, !Z.ltb_lt. lia.
Qed.

(** The cards of two cells have no point in common: the cells are 110 apart
    and a card is 100 wide. *)
Lemma card_at_collide (grid : nat) (cell cell' : nat * nat) (v v' : string)
    (pos : point) :
  Card.collidepoint (card_at grid cell v) pos = true ->
  Card.collidepoint (card_at grid cell' v') pos = true -> cell = cell'.
Proof.
  rewrite !collidepoint_spec. unfold card_at, CARD_SIZE, CARD_SPACING. simpl.
  destruct cell as [r c], cell' as [r' c']. simpl.
  intros [? ?] [? ?]. f_equal; lia.
Qed.

Lemma init_grid_separate (grid : nat) (values : list string) (h : heap)
    (s : Game.state) :
  Game.init_grid grid values h = Some s -> separate s.
Proof.
  intros Hs a b pos Ha Hb Hca Hcb.
  destruct (init_grid_card _ _ _ _ a Hs Ha) as (_ & i & ci & vi & -> & Hi & Ei).
  destruct (init_grid_card _ _ _ _ b Hs Hb) as (_ & j & cj & vj & -> & Hj & Ej).
  rewrite Ei in Hca. rewrite Ej in Hcb.
  pose proof (card_at_collide _ _ _ _ _ _ Hca Hcb) as <-.
  f_equal. eapply NoDup_lookup; [apply NoDup_cells | done | done].
Qed.

Lemma collidepoint_layout (c c' : Card.t) (pos : point) :
  layout c = layout c' -> Card.collidepoint c pos = Card.collidepoint c' pos.
Proof. unfold layout, Card.collidepoint. by intros [= -> -> _]. Qed.

Lemma separate_same_board (s s' : Game.state) :
  same_board s s' -> separate s -> separate s'.
Proof.
  intros (Hc & _ & Hl) Hs a b pos Ha Hb Hca Hcb. rewrite Hc in Ha, Hb.
  apply (Hs a b pos); try done.
  - by rewrite <- (collidepoint_layout _ _ pos (Hl a)).
  - by rewrite <- (collidepoint_layout _ _ pos (Hl b)).
Qed.

(** A fresh game satisfies the invariant. *)
Lemma init_grid_consistent (grid : nat) (values : list string) (h : heap)
    (s : Game.state) :
  (0 < grid)%nat -> Game.init_grid grid values h = Some s -> consistent s.
Proof.
  intros Hg Hs.
  assert (forall a, a ∈ Game.cards s.2 ->
            (a < length s.1)%nat /\ Card.is_flipped (s.1 !!! a) = false /\
            Card.is_matched (s.1 !!! a) = false /\
            Card.flip_progress (s.1 !!! a) = 0) as Hc.
  { intros a Ha.
    destruct (init_grid_card _ _ _ _ a Hs Ha) as (? & i & cell & v & _ & _ & ->).
    done. }
  destruct (init_grid_tiles _ _ _ _ Hs) as (Hl & E & _).
  assert (Game.cards s.2 = seq (length h) (grid * grid) /\
          Game.first_selection s.2 = None /\ Game.second_selection s.2 = None /\
          Game.moves s.2 = 0 /\ Game.victory s.2 = false /\
          Game.wait_time s.2 = 0) as (Ec & E1 & E2 & Em & Ev & Ew)
    by (by subst s).
  clear E. split.
  - rewrite Ec. apply NoDup_seq.
  - intros a Ha. by apply Hc.
  - by rewrite E1.
  - by rewrite E2.
  - rewrite Ew, E2. unfold FPS. split; [lia|]. lia.
  - intros a Ha. unfold is_revealed.
    destruct (Hc a Ha) as (_ & -> & _). done.
  - intros a Ha. destruct (Hc a Ha) as (_ & _ & -> & _). done.
  - rewrite Ev. split; [done|]. intros H.
    assert (length h ∈ Game.cards s.2) as Hin.
    { rewrite Ec. apply elem_of_seq. nia. }
    specialize (H _ Hin). destruct (Hc _ Hin) as (_ & _ & E & _). congruence.
  - rewrite Em. done.
  - intros a Ha. destruct (Hc a Ha) as (_ & _ & _ & ->). unfold CARD_SIZE. lia.
Qed.

Lemma fresh_consistent (s : Game.state) : fresh s -> consistent s.
Proof.
  intros (values & h & _ & Hs).
  apply (init_grid_consistent GRID_SIZE values h); [unfold GRID_SIZE; lia | done].
Qed.

Lemma fresh_separate (s : Game.state) : fresh s -> separate s.
Proof. intros (values & h & _ & Hs). by eapply init_grid_separate. Qed.

Lemma reachable_consistent (s : Game.state) : reachable s -> consistent s.
Proof.
  intros (s0 & es & H0 & ->). by apply run_consistent, fresh_consistent.
Qed.

Lemma reachable_separate (s : Game.state) : reachable s -> separate s.
Proof.
  intros (s0 & es & H0 & ->).
  eapply separate_same_board; [apply run_board | by apply fresh_separate].
Qed.

Lemma reachable_step (e : event) (s : Game.state) :
  reachable s -> reachable (step e s).
Proof.
  intros (s0 & es & H0 & ->). exists s0, (es ++ [e]). split; [done|].
  by rewrite run_app.
Qed.

Lemma reachable_run (es : list event) (s : Game.state) :
  reachable s -> reachable (run es s).
Proof.
  intros (s0 & es0 & H0 & ->). exists s0, (es0 ++ es). split; [done|].
  by rewrite run_app.
Qed.

Lemma fresh_example : fresh example_game.
Proof. exists example_values, []. split; [done|]. reflexivity. Qed.

Lemma reachable_example (es : list event) : reachable (run es example_game).
Proof. exists example_game, es. split; [apply fresh_example | done]. Qed.

(** ** The animation of one card (C8) *)

(** C8.  One call of [update_animation] on a card whose progress is within
    [0, CARD_SIZE] changes nothing but [flip_progress]; the new progress is
    again within [0, CARD_SIZE]; below its target (CARD_SIZE when the card is
    flipped or matched, 0 otherwise) it goes up by [ANIMATION_SPEED] or stops
    at the target, above it goes down by [ANIMATION_SPEED] or stops at the
    target, so it never passes the target; at the target the card is left as
    it is. *)
Theorem update_animation_towards_target (c : Card.t) :
  0 <= Card.flip_progress c <= CARD_SIZE ->
  let c' := Card.update_animation c in
  layout c' = layout c /\ face c' = face c /\
  animation_target c' = animation_target c /\
  0 <= Card.flip_progress c' <= CARD_SIZE /\
  (Card.flip_progress c < animation_target c ->
     Card.flip_progress c' =
       Z.min (Card.flip_progress c + ANIMATION_SPEED) (animation_target c) /\
     Card.flip_progress c < Card.flip_progress c' <= animation_target c) /\
  (animation_target c < Card.flip_progress c ->
     Card.flip_progress c' =
       Z.max (Card.flip_progress c - ANIMATION_SPEED) (animation_target c) /\
     animation_target c <= Card.flip_progress c' < Card.flip_progress c) /\
  (Card.flip_progress c = animation_target c -> c' = c).
Proof.
  intros Hr c'. subst c'.
  split; [apply update_animation_layout|].
  split; [apply update_animation_face|].
  split.
  { unfold animation_target.
    destruct (face_eq _ _ (update_animation_face c)) as [-> ->]. reflexivity. }
  destruct c as [x0 y0 v fl m p]; simpl in Hr.
  unfold Card.update_animation, animation_target, CARD_SIZE, ANIMATION_SPEED in *;
    simpl.
  destruct (fl || m); simpl;
    repeat (case_match; simpl);
    repeat match goal with
           | H : (_ <? _) = true |- _ => apply Z.ltb_lt in H
           | H : (_ <? _) = false |- _ => apply Z.ltb_ge in H
           end;
    repeat split; intros; try lia; try (f_equal; lia).
Qed.

(** A flipped card at progress 96 stops at 100, four short of a full step. *)
Lemma update_animation_towards_target_witness :
  let c := Card.mk 105 25 "3" true false 96 in
  0 <= Card.flip_progress c <= CARD_SIZE /\
  Card.flip_progress (Card.update_animation c) = 100.
Proof.
  split; [unfold CARD_SIZE; simpl; lia|].
  pose proof (update_animation_towards_target (Card.mk 105 25 "3" true false 96))
    as H.
  simpl in H.
  destruct H as (_ & _ & _ & _ & Hup & _); [unfold CARD_SIZE; lia|].
  destruct Hup as [Hup _]; [reflexivity|]. exact Hup.
Defined.

(** The animation progress of every card of a reachable state is within
    its range. *)
Lemma reachable_progress (s : Game.state) (c : Card.t) :
  reachable s -> c ∈ tiles s -> 0 <= Card.flip_progress c <= CARD_SIZE.
Proof.
  intros Hs%reachable_consistent [a [-> Ha]]%list_elem_of_fmap.
  by apply (cs_progress s Hs).
Qed.

(** ** Taps that are ignored (C6) *)

(** The loop finds no card to act on when every card under the tap is
    flipped, matched or the first selection itself. *)
Lemma click_loop_ignored (pos : point) (l : list addr) (s : Game.state) :
  (forall a, a ∈ l -> Card.collidepoint (s.1 !!! a) pos = true ->
     Card.is_flipped (s.1 !!! a) = true \/ Card.is_matched (s.1 !!! a) = true \/
     Game.first_selection s.2 = Some a) ->
  Game.click_loop pos l s = s.
Proof.
  induction l as [|a l IH]; intros H; simpl; [reflexivity|].
  destruct (Card.collidepoint (s.1 !!! a) pos) eqn:Hc; simpl.
  - destruct (H a) as [Hf|[Hm|Hs]]; [by left | done | | |].
    + rewrite Hf. simpl. apply IH. intros c Hin. apply H. by right.
    + rewrite Hm, andb_false_r. apply IH. intros c Hin. apply H. by right.
    + destruct (Card.is_flipped (s.1 !!! a)); simpl;
        [apply IH; intros c Hin; apply H; by right|].
      destruct (Card.is_matched (s.1 !!! a)); simpl;
        [apply IH; intros c Hin; apply H; by right|].
      destruct s as [h g]; simpl in *. rewrite Hs.
      rewrite (bool_decide_eq_true_2 (a = a)) by reflexivity.
      by rewrite andb_false_r.
  - apply IH. intros c Hin. apply H. by right.
Qed.

(** C6.  [handle_click] returns the state it was given, store and game alike,
    when the game is won, or the wait counter is running, or the tile under
    the tap is flipped, or matched, or is the first selection. *)
Theorem handle_click_ignored (pos : point) (s : Game.state) :
  Game.victory s.2 = true \/ 0 < Game.wait_time s.2 \/
  (exists t, tapped pos s t /\
     (Card.is_flipped (s.1 !!! t) = true \/ Card.is_matched (s.1 !!! t) = true \/
      Game.first_selection s.2 = Some t)) ->
  Game.handle_click pos s = s.
Proof.
  intros H. unfold Game.handle_click.
  destruct (0 <? Game.wait_time s.2) eqn:Hw; [reflexivity|].
  destruct (Game.victory s.2) eqn:Hv; [reflexivity|]. simpl.
  destruct H as [H|[H|(t & [Ht Hu] & H)]]; [done| |].
  - apply Z.ltb_ge in Hw. lia.
  - apply click_loop_ignored. intros a Ha Hc.
    apply (Hu a Ha) in Hc. by subst a.
Qed.

(** In a reachable state the card under a tap is unique. *)
Lemma reachable_tapped (pos : point) (s : Game.state) (t : addr) :
  reachable s -> t ∈ Game.cards s.2 ->
  Card.collidepoint (s.1 !!! t) pos = true -> tapped pos s t.
Proof.
  intros Hs%reachable_separate Ht Hc. split; [done|].
  intros a Ha. split; [|by intros ->].
  intros Hca. by apply (Hs a t pos).
Qed.

(** A second tap on the card just picked changes nothing. *)
Lemma handle_click_ignored_witness :
  Game.handle_click (105, 25) (run [Click (105, 25)] example_game) =
  run [Click (105, 25)] example_game.
Proof.
  apply handle_click_ignored. right; right. exists 0%nat. split.
  - apply reachable_tapped; [apply reachable_example | | reflexivity].
    vm_compute. repeat constructor.
  - left. reflexivity.
Defined.

(** ** At most two cards face up for comparison (C1) *)

(** Counting in a mapped list. *)
Lemma length_filter_fmap {A B : Type} (f : A -> B) (P : B -> Prop)
    `{forall x, Decision (P x)} (l : list A) :
  length (filter P (f <$> l)) = length (filter (fun x => P (f x)) l).
Proof.
  induction l as [|x l IH]; [done|].
  rewrite fmap_cons, !filter_cons. repeat case_decide; simpl; congruence.
Qed.

Lemma length_selections (g : Game.t) : (length (selections g) <= 2)%nat.
Proof.
  unfold selections.
  destruct (Game.first_selection g), (Game.second_selection g); simpl; lia.
Qed.

(** C1.  In every state reached from a fresh game by clicks and updates, at
    most two cards of the game are flipped and not matched. *)
Theorem at_most_two_revealed (s : Game.state) :
  reachable s ->
  (length (filter (fun c => is_revealed c = true) (tiles s)) <= 2)%nat.
Proof.
  intros Hs%reachable_consistent. unfold tiles. rewrite length_filter_fmap.
  etransitivity; [|apply (length_selections s.2)].
  apply submseteq_length, NoDup_submseteq.
  - apply list.NoDup_filter, Hs.
  - intros a [Hr Ha]%list_elem_of_filter. unfold selections.
    apply elem_of_app.
    destruct (cs_revealed s Hs a Ha Hr) as [->| ->]; [left | right]; by left.
Qed.

Lemma at_most_two_revealed_witness :
  (length (filter (fun c => is_revealed c = true)
     (tiles (run example_mismatch example_game))) <= 2)%nat.
Proof. apply at_most_two_revealed, reachable_example. Defined.

(** ** Victory (C7) *)

(** C7.  In every state reached from a fresh game, [victory] is set exactly
    when every card of the game is matched. *)
Theorem victory_iff_all_matched (s : Game.state) :
  reachable s ->
  (Game.victory s.2 = true <->
   forall c, c ∈ tiles s -> Card.is_matched c = true).
Proof.
  intros Hs%reachable_consistent. rewrite (cs_victory s Hs). unfold tiles.
  split.
  - intros H c [a [-> Ha]]%list_elem_of_fmap. auto.
  - intros H a Ha. apply H, list_elem_of_fmap. by exists a.
Qed.

Lemma victory_iff_all_matched_witness :
  Game.victory (run example_match example_game).2 = true <->
  forall c, c ∈ tiles (run example_match example_game) ->
    Card.is_matched c = true.
Proof. apply victory_iff_all_matched, reachable_example. Defined.

(** The equivalence is kept by every click and every update, from whatever
    state it holds in. *)
Lemma select_card_victory_sound (a : addr) (s : Game.state) :
  Game.victory s.2 = false -> victory_sound s ->
  victory_sound (Game.select_card a s).
Proof.
  destruct s as [h g]. unfold victory_sound. simpl. intros Hv Hs.
  assert (forall c, Card.is_matched (alter Card.flip a h !!! c)
                    = Card.is_matched (h !!! c)) as Ef
    by (intros c; by apply lookup_alter_proj).
  unfold Game.select_card.
  destruct (Game.first_selection g) as [f|].
  - destruct (_ && _); [|done].
    destruct (bool_decide _); simpl.
    + rewrite check_victory_cards. by apply check_victory_spec.
    + rewrite Hs. split; intros H c Hc; specialize (H c Hc); by rewrite Ef in *.
  - simpl. rewrite Hs. split; intros H c Hc; specialize (H c Hc); by rewrite Ef in *.
Qed.

Lemma flip_unless_matched_matched (o : option addr) (h : heap) (c : addr) :
  Card.is_matched (Game.flip_unless_matched o h !!! c) = Card.is_matched (h !!! c).
Proof.
  destruct o as [a|]; simpl; [|reflexivity].
  destruct (negb _); [by apply lookup_alter_proj | reflexivity].
Qed.

Lemma step_victory_sound (e : event) (s : Game.state) :
  victory_sound s -> victory_sound (step e s).
Proof.
  intros Hs. destruct e as [pos|]; simpl.
  - unfold Game.handle_click. destruct (0 <? _); [done|].
    destruct (Game.victory s.2) eqn:Hv; [done|]. simpl.
    induction (Game.cards s.2) as [|a l IH] in |- * at 1; simpl; [done|].
    destruct (_ && _); [by apply select_card_victory_sound | exact IH].
  - destruct s as [h g]. unfold victory_sound in *. simpl in *.
    unfold Game.update.
    assert (forall c, Card.is_matched (Game.update_animations (Game.cards g) h !!! c)
                      = Card.is_matched (h !!! c)) as Em.
    { intros c. apply face_eq, update_animations_face. }
    set (h1 := Game.update_animations (Game.cards g) h) in *. clearbody h1.
    assert (Game.victory g = true <->
            forall a, a ∈ Game.cards g -> Card.is_matched (h1 !!! a) = true) as H1.
    { rewrite Hs. split; intros H c Hc; specialize (H c Hc); by rewrite Em in *. }
    destruct (0 <? Game.wait_time g); [|done].
    destruct (_ =? 0); [|done].
    unfold Game.flip_back_cards. simpl. destruct (_ && _); [|done]. simpl.
    rewrite H1.
    split; intros H c Hc; specialize (H c Hc);
      by rewrite !flip_unless_matched_matched in *.
Qed.

Lemma run_victory_sound (es : list event) (s : Game.state) :
  victory_sound s -> victory_sound (run es s).
Proof.
  revert s. induction es as [|e es IH]; intros s Hs; [done|].
  simpl. by apply IH, step_victory_sound.
Qed.

(** ** What a tap does *)

(** The loop of [handle_click] either finds no card that passes its test,
    or runs its body once, on a card of the list that passes it. *)
Lemma click_loop_cases (pos : point) (l : list addr) (s : Game.state) :
  (Game.click_loop pos l s = s /\ forall a, a ∈ l -> pickable pos s.1 a = false) \/
  (exists a, a ∈ l /\ pickable pos s.1 a = true /\
     Game.click_loop pos l s = Game.select_card a s).
Proof.
  induction l as [|t l IH]; simpl.
  - left. split; [done|]. intros a Ha. by apply elem_of_nil in Ha.
  - fold (pickable pos s.1 t). destruct (pickable pos s.1 t) eqn:E.
    + right. exists t. split; [by left | done].
    + destruct IH as [[-> H]|(a & Ha & Hp & ->)].
      * left. split; [done|]. intros a [->|Ha]%elem_of_cons; auto.
      * right. exists a. split; [by right | done].
Qed.

Lemma pickable_spec (pos : point) (h : heap) (a : addr) :
  pickable pos h a = true <->
  Card.collidepoint (h !!! a) pos = true /\ is_hidden (h !!! a) = true.
Proof.
  unfold pickable, is_hidden. rewrite !andb_true_iff. tauto.
Qed.

(** In a consistent state a tap is ignored, a first pick or a second pick. *)
Lemma handle_click_outcome (pos : point) (s : Game.state) :
  consistent s -> click_outcome pos s (Game.handle_click pos s).
Proof.
  intros Hs. unfold Game.handle_click.
  destruct (0 <? Game.wait_time s.2) eqn:Hw; [by constructor 1|].
  destruct (Game.victory s.2) eqn:Hv; [by constructor 1|]. simpl.
  apply Z.ltb_ge in Hw.
  destruct (click_loop_cases pos (Game.cards s.2) s) as [[-> _]|(a & Ha & Hp & ->)];
    [by constructor 1|].
  destruct s as [h g]. simpl in *.
  assert (Game.second_selection g = None) as Hs2.
  { destruct (Game.second_selection g) as [b|] eqn:E; [|done].
    destruct (cs_second _ Hs b E) as (_ & _ & ? & _). simpl in *. lia. }
  pose proof (cs_bound _ Hs a Ha) as Hal. simpl in Hal.
  pose proof Hp as Hp'. apply pickable_spec in Hp' as [_ Hh].
  unfold is_hidden in Hh. apply andb_true_iff in Hh as [Hhf Hhm].
  apply negb_true_iff in Hhf, Hhm.
  unfold Game.select_card.
  destruct (Game.first_selection g) as [f|] eqn:Ef.
  - destruct (cs_first _ Hs f Ef) as [Hfin Hfr]. simpl in *.
    assert (a <> f) as Hfa.
    { intros ->. unfold is_revealed in Hfr. by rewrite Hhf in Hfr. }
    pose proof (cs_bound _ Hs f Hfin) as Hfl. simpl in Hfl.
    rewrite Hs2, bool_decide_eq_true_2 by done.
    rewrite (bool_decide_eq_false_2 (a = f)) by done. simpl.
    rewrite lookup_alter_other by done. rewrite lookup_alter_same by done.
    replace (Card.value (Card.flip (h !!! a))) with (Card.value (h !!! a)) by done.
    destruct (bool_decide _) eqn:Hval.
    + apply bool_decide_eq_true in Hval.
      apply (click_second _ _ _ f a); simpl; try done.
      * by rewrite (proj1 (proj2 (proj2 (check_victory_selection _ _)))).
      * rewrite lookup_alter_same by (by rewrite !length_alter).
        rewrite lookup_alter_other by done.
        rewrite lookup_alter_same by done. simpl. by rewrite Hhf.
      * left. split; [done|].
        rewrite lookup_alter_other by done.
        rewrite !lookup_alter_same by (rewrite ?length_alter; done).
        repeat split; try done.
        by rewrite (proj2 (proj2 (proj2 (check_victory_selection _ _)))).
    + apply bool_decide_eq_false in Hval.
      apply (click_second _ _ _ f a); simpl; try done.
      * rewrite lookup_alter_same by done. simpl. by rewrite Hhf.
      * by right.
  - by apply (click_first _ _ _ a).
Qed.

(** ** The move counter (C5) *)

(** A tap that leaves the state as it is turns no card up. *)
Lemma turns_up_false (pos : point) (s : Game.state) :
  Game.handle_click pos s = s -> turns_up pos s = false.
Proof.
  intros E. unfold turns_up. rewrite E. apply bool_decide_eq_false.
  intros (a & _ & H1 & H2)%list.Exists_exists. congruence.
Qed.

Lemma turns_up_true (pos : point) (s : Game.state) (a : addr) :
  a ∈ Game.cards s.2 -> Card.is_flipped (s.1 !!! a) = false ->
  Card.is_flipped ((Game.handle_click pos s).1 !!! a) = true ->
  turns_up pos s = true.
Proof.
  intros Ha H1 H2. apply bool_decide_eq_true, list.Exists_exists. by exists a.
Qed.

(** [update] does not write [moves]. *)
Lemma update_moves (s : Game.state) :
  Game.moves (Game.update s).2 = Game.moves s.2.
Proof.
  destruct s as [h g]. unfold Game.update, Game.flip_back_cards. simpl.
  repeat case_match; done.
Qed.

(** What the three tests say about a tap in a consistent state. *)
Lemma click_kinds (pos : point) (s : Game.state) :
  consistent s ->
  let s' := Game.handle_click pos s in
  (second_pick pos s = true ->
     Game.moves s'.2 = Game.moves s.2 + 1 /\
     exists f a, Game.first_selection s.2 = Some f /\ a <> f /\
       a ∈ Game.cards s.2 /\ pickable pos s.1 a = true /\
       Card.is_flipped (s'.1 !!! a) = true /\
       (Card.value (s.1 !!! f) = Card.value (s.1 !!! a) /\
        Card.is_matched (s'.1 !!! f) = true /\
        Card.is_matched (s'.1 !!! a) = true /\
        Game.first_selection s'.2 = None /\ Game.second_selection s'.2 = None
        \/
        Card.value (s.1 !!! f) <> Card.value (s.1 !!! a) /\
        Game.first_selection s'.2 = Some f /\
        Game.second_selection s'.2 = Some a /\ Game.wait_time s'.2 = FPS)) /\
  (first_pick pos s = true ->
     Game.moves s'.2 = Game.moves s.2 /\
     exists a, a ∈ Game.cards s.2 /\ pickable pos s.1 a = true /\
       Card.is_flipped (s'.1 !!! a) = true /\
       Game.first_selection s'.2 = Some a /\ Game.second_selection s'.2 = None) /\
  (turns_up pos s = false -> s' = s) /\
  (second_pick pos s = false -> Game.moves s'.2 = Game.moves s.2).
Proof.
  intros Hs s'. subst s'. unfold first_pick, second_pick.
  destruct (handle_click_outcome pos s Hs)
    as [E | a Ha Hp Hf E | f a Ha Hp Hf Hs2 Hne Hm Hfl Hcmp].
  - rewrite (turns_up_false pos s E). simpl. rewrite E. repeat split; done.
  - assert (Card.is_flipped (s.1 !!! a) = false) as Hhf.
    { apply pickable_spec in Hp as [_ Hh]. unfold is_hidden in Hh.
      apply andb_true_iff in Hh as [Hh _]. by apply negb_true_iff in Hh. }
    assert (Card.is_flipped ((Game.handle_click pos s).1 !!! a) = true) as Hfl.
    { rewrite E. simpl. rewrite lookup_alter_same by (by apply (cs_bound s Hs)).
      simpl. by rewrite Hhf. }
    rewrite (turns_up_true pos s a Ha Hhf Hfl). rewrite Hf. simpl.
    assert (Game.second_selection s.2 = None) as Hs2.
    { destruct (Game.second_selection s.2) as [b|] eqn:Eb; [|done].
      destruct (cs_second s Hs b Eb) as (_ & _ & _ & f & Ef & _). congruence. }
    split; [done|]. split; [|split; [done|]].
    + intros _. split; [by rewrite E|]. exists a.
      repeat split; try done; by rewrite E.
    + intros _. by rewrite E.
  - assert (Card.is_flipped (s.1 !!! a) = false) as Hhf.
    { apply pickable_spec in Hp as [_ Hh]. unfold is_hidden in Hh.
      apply andb_true_iff in Hh as [Hh _]. by apply negb_true_iff in Hh. }
    rewrite (turns_up_true pos s a Ha Hhf Hfl). rewrite Hf. simpl.
    split; [|done].
    intros _. split; [done|]. exists f, a. repeat split; try done.
    destruct Hcmp as [(Hv & Hmf & Hma & H1 & H2 & _)|[Hv E]].
    + left. done.
    + right. rewrite E. simpl. rewrite Hf. done.
Qed.

(** Each second pick of a run adds one to [moves], and nothing else does. *)
Lemma moves_run (es : list event) (s : Game.state) :
  consistent s ->
  Game.moves (run es s).2 = Game.moves s.2 + Z.of_nat (comparisons es s).
Proof.
  revert s. induction es as [|e es IH]; intros s Hs; simpl; [lia|].
  rewrite IH by by apply step_consistent.
  destruct e as [pos|]; simpl.
  - destruct (click_kinds pos s Hs) as (H2 & _ & _ & H0).
    destruct (second_pick pos s).
    + destruct H2 as [-> _]; [done|]. lia.
    + rewrite H0 by done. lia.
  - rewrite update_moves. lia.
Qed.

(** C5.  Along every run from a fresh game the move counter equals the
    number of second picks made so far.  In the state reached, a second pick
    (a tap that turns a card up while one card is selected) compares the two
    cards, as a match or a mismatch, and adds exactly one to [moves]; a first
    pick (a tap that turns a card up while none is selected) leaves [moves]
    as it is; a tap that turns no card up leaves the whole state as it is;
    and [update] never changes [moves]. *)
Theorem moves_counts_comparisons (s0 : Game.state) (es : list event) :
  fresh s0 ->
  let s := run es s0 in
  Game.moves s.2 = Z.of_nat (comparisons es s0) /\
  Game.moves (Game.update s).2 = Game.moves s.2 /\
  forall pos, let s' := Game.handle_click pos s in
    (second_pick pos s = true ->
       Game.moves s'.2 = Game.moves s.2 + 1 /\
       exists f a, Game.first_selection s.2 = Some f /\ a <> f /\
         a ∈ Game.cards s.2 /\ pickable pos s.1 a = true /\
         Card.is_flipped (s'.1 !!! a) = true /\
         (Card.value (s.1 !!! f) = Card.value (s.1 !!! a) /\
          Card.is_matched (s'.1 !!! f) = true /\
          Card.is_matched (s'.1 !!! a) = true /\
          Game.first_selection s'.2 = None /\ Game.second_selection s'.2 = None
          \/
          Card.value (s.1 !!! f) <> Card.value (s.1 !!! a) /\
          Game.first_selection s'.2 = Some f /\
          Game.second_selection s'.2 = Some a /\ Game.wait_time s'.2 = FPS)) /\
    (first_pick pos s = true ->
       Game.moves s'.2 = Game.moves s.2 /\
       exists a, a ∈ Game.cards s.2 /\ pickable pos s.1 a = true /\
         Card.is_flipped (s'.1 !!! a) = true /\
         Game.first_selection s'.2 = Some a /\ Game.second_selection s'.2 = None) /\
    (turns_up pos s = false -> s' = s) /\
    (second_pick pos s = false -> Game.moves s'.2 = Game.moves s.2).
Proof.
  intros H0 s. pose proof (fresh_consistent s0 H0) as Hc0.
  split; [|split].
  - subst s. rewrite moves_run by done.
    destruct H0 as (values & h & _ & Hi).
    destruct (init_grid_tiles _ _ _ _ Hi) as (_ & -> & _). simpl. lia.
  - apply update_moves.
  - intros pos. apply click_kinds. by apply run_consistent.
Qed.

Lemma moves_counts_comparisons_witness :
  Game.moves (run example_two_moves example_game).2 = 2 /\
  comparisons example_two_moves example_game = 2%nat.
Proof.
  destruct (moves_counts_comparisons example_game example_two_moves fresh_example)
    as [H _].
  split; [rewrite H|]; vm_compute; reflexivity.
Defined.

(** ** A mismatch and the wait (C3) *)

(** Where no two cards overlap, the loop of [handle_click] picks the one
    pickable card under the tap. *)
Lemma click_loop_target (pos : point) (s : Game.state) (a : addr) :
  separate s -> a ∈ Game.cards s.2 -> pickable pos s.1 a = true ->
  Game.click_loop pos (Game.cards s.2) s = Game.select_card a s.
Proof.
  intros Hsep Ha Hp.
  destruct (click_loop_cases pos (Game.cards s.2) s) as [[_ H]|(a' & Ha' & Hp' & ->)].
  - rewrite (H a Ha) in Hp. done.
  - f_equal. apply pickable_spec in Hp as [Hc _], Hp' as [Hc' _].
    by apply (Hsep a' a pos).
Qed.

(** An update with more than one tick left to wait. *)
Lemma update_waiting (h : heap) (g : Game.t) :
  1 < Game.wait_time g ->
  Game.update (h, g) =
  (Game.update_animations (Game.cards g) h,
   Game.set_wait_time (Game.wait_time g - 1) g).
Proof.
  intros Hw. unfold Game.update.
  rewrite (proj2 (Z.ltb_lt 0 _)) by lia. simpl.
  by rewrite (proj2 (Z.eqb_neq _ 0)) by lia.
Qed.

(** The update that ends the wait. *)
Lemma update_flips_back (h : heap) (g : Game.t) (a b : addr) :
  Game.wait_time g = 1 ->
  Game.first_selection g = Some a -> Game.second_selection g = Some b ->
  a <> b ->
  Card.is_matched (h !!! a) = false -> Card.is_matched (h !!! b) = false ->
  Game.update (h, g) =
  (alter Card.flip b (alter Card.flip a
     (Game.update_animations (Game.cards g) h)),
   Game.reset_selection (Game.set_wait_time 0 g)).
Proof.
  intros Hw Ha Hb Hne Hma Hmb. unfold Game.update. rewrite Hw. simpl.
  unfold Game.flip_back_cards. simpl. rewrite Ha, Hb. simpl.
  destruct (face_eq _ _ (update_animations_face (Game.cards g) h a)) as [_ ->].
  rewrite Hma. simpl. rewrite lookup_alter_other by done.
  destruct (face_eq _ _ (update_animations_face (Game.cards g) h b)) as [_ ->].
  by rewrite Hmb.
Qed.

(** While the counter is above the number of updates, each update only
    advances the animation and takes one off the counter. *)
Lemma run_ticks_waiting (k : nat) (s : Game.state) :
  Z.of_nat k < Game.wait_time s.2 ->
  let s' := run (replicate k Tick) s in
  s'.2 = Game.set_wait_time (Game.wait_time s.2 - Z.of_nat k) s.2 /\
  length s'.1 = length s.1 /\
  forall c, face (s'.1 !!! c) = face (s.1 !!! c).
Proof.
  revert s. induction k as [|k IH]; intros [h g] Hk.
  - simpl. rewrite Z.sub_0_r. by destruct g.
  - change (run (replicate (S k) Tick) (h, g))
      with (run (replicate k Tick) (Game.update (h, g))).
    cbn [fst snd] in *. rewrite update_waiting by lia.
    destruct (IH (Game.update_animations (Game.cards g) h,
                  Game.set_wait_time (Game.wait_time g - 1) g))
      as (E & El & Ef); [simpl; lia|].
    cbn zeta. rewrite E, El. cbn [fst snd]. repeat split.
    + unfold Game.set_wait_time. simpl. f_equal. lia.
    + apply update_animations_length.
    + intros c. rewrite Ef. apply update_animations_face.
Qed.

Lemma revealed_face (c c' : Card.t) :
  face c' = face c -> is_revealed c' = is_revealed c.
Proof. unfold is_revealed. by intros [-> ->]%face_eq. Qed.

(** C3.  In a state reached from a fresh game with nothing selected, a tap
    on a hidden card and then a tap on a hidden card with another symbol
    leave both cards flipped and unmatched, [moves] one higher and
    [wait_time] at [FPS].  The next [FPS - 1] updates count [wait_time] down
    and leave both cards face up; after the update number [FPS] both cards
    are face down again, [wait_time] is 0 and nothing is selected. *)
Theorem mismatch_flips_back (s : Game.state) (pos1 pos2 : point) (a b : addr) :
  reachable s ->
  Game.first_selection s.2 = None -> Game.second_selection s.2 = None ->
  a ∈ Game.cards s.2 -> b ∈ Game.cards s.2 ->
  Card.collidepoint (s.1 !!! a) pos1 = true -> is_hidden (s.1 !!! a) = true ->
  Card.collidepoint (s.1 !!! b) pos2 = true -> is_hidden (s.1 !!! b) = true ->
  Card.value (s.1 !!! a) <> Card.value (s.1 !!! b) ->
  let s1 := run [Click pos1; Click pos2] s in
  (is_revealed (s1.1 !!! a) = true /\ is_revealed (s1.1 !!! b) = true /\
   Game.moves s1.2 = Game.moves s.2 + 1 /\ Game.wait_time s1.2 = FPS) /\
  (forall k : nat, Z.of_nat k < FPS ->
     let sk := run (replicate k Tick) s1 in
     is_revealed (sk.1 !!! a) = true /\ is_revealed (sk.1 !!! b) = true /\
     Game.wait_time sk.2 = FPS - Z.of_nat k) /\
  let s2 := run (replicate (Z.to_nat FPS) Tick) s1 in
  is_hidden (s2.1 !!! a) = true /\ is_hidden (s2.1 !!! b) = true /\
  Game.wait_time s2.2 = 0 /\
  Game.first_selection s2.2 = None /\ Game.second_selection s2.2 = None /\
  Game.moves s2.2 = Game.moves s.2 + 1.
Proof.
  intros Hr E1 E2 Ha Hb Hca Hha Hcb Hhb Hv.
  pose proof (reachable_consistent s Hr) as Hc.
  pose proof (reachable_separate s Hr) as Hsep.
  destruct s as [h g]. cbn [fst snd] in *.
  assert (a <> b) as Hab by (intros ->; done).
  pose proof (cs_bound _ Hc a Ha) as Hal.
  pose proof (cs_bound _ Hc b Hb) as Hbl. simpl in Hal, Hbl.
  assert (Game.wait_time g = 0) as Hw.
  { destruct (cs_wait _ Hc) as [Hw1 Hw2]. simpl in *.
    destruct (decide (0 < Game.wait_time g)) as [Hp|Hp]; [|lia].
    by apply Hw2 in Hp. }
  assert (Card.is_flipped (h !!! a) = false /\ Card.is_matched (h !!! a) = false)
    as [Haf Ham].
  { unfold is_hidden in Hha. apply andb_true_iff in Hha as [H1 H2].
    by apply negb_true_iff in H1, H2. }
  assert (Card.is_flipped (h !!! b) = false /\ Card.is_matched (h !!! b) = false)
    as [Hbf Hbm].
  { unfold is_hidden in Hhb. apply andb_true_iff in Hhb as [H1 H2].
    by apply negb_true_iff in H1, H2. }
  assert (Game.victory g = false) as Hvic.
  { destruct (Game.victory g) eqn:E; [|done].
    pose proof (cs_victory _ Hc) as Hcv. cbn [fst snd] in Hcv.
    rewrite Hcv in E. specialize (E a Ha). congruence. }
  (* the first tap *)
  assert (Game.handle_click pos1 (h, g) =
          (alter Card.flip a h, Game.set_first_selection (Some a) g)) as Ec1.
  { unfold Game.handle_click. cbn [fst snd]. rewrite Hw, Hvic. simpl.
    pose proof (click_loop_target pos1 (h, g) a Hsep Ha) as El.
    cbn [fst snd] in El. rewrite El by (by apply pickable_spec).
    unfold Game.select_card. by rewrite E1. }
  (* the second tap *)
  set (h1 := alter Card.flip a h) in *.
  set (g1 := Game.set_first_selection (Some a) g) in *.
  assert (h1 !!! b = h !!! b) as Eb1 by (by apply lookup_alter_other).
  assert (h1 !!! a = Card.flip (h !!! a)) as Ea1 by (by apply lookup_alter_same).
  assert (Game.handle_click pos2 (h1, g1) =
          (alter Card.flip b h1,
           Game.set_wait_time FPS
             (Game.set_moves (Game.moves g + 1)
                (Game.set_second_selection (Some b) g1)))) as Ec2.
  { assert (separate (h1, g1)) as Hsep1.
    { rewrite <- Ec1.
      eapply separate_same_board; [apply (handle_click_board pos1)|]. done. }
    unfold Game.handle_click. cbn [fst snd]. unfold g1 at 1 2.
    cbn [Game.wait_time Game.victory Game.set_first_selection].
    rewrite Hw, Hvic. simpl.
    pose proof (click_loop_target pos2 (h1, g1) b Hsep1 Hb) as El.
    simpl in El. rewrite El by (apply pickable_spec; by rewrite Eb1).
    unfold Game.select_card. unfold g1.
    cbn [Game.first_selection Game.second_selection Game.set_first_selection
         Game.moves].
    rewrite E2.
    rewrite bool_decide_eq_true_2 by done.
    rewrite (bool_decide_eq_false_2 (b = a)) by done. simpl.
    rewrite lookup_alter_other by done.
    rewrite lookup_alter_same by (unfold h1; by rewrite length_alter).
    rewrite Ea1, Eb1.
    rewrite bool_decide_eq_false_2; [done|]. simpl. done. }
  set (h2 := alter Card.flip b h1) in *.
  set (g2 := Game.set_wait_time FPS _) in *.
  assert (h2 !!! a = Card.flip (h !!! a)) as Ea2.
  { unfold h2. rewrite lookup_alter_other by done. done. }
  assert (h2 !!! b = Card.flip (h !!! b)) as Eb2.
  { unfold h2. rewrite lookup_alter_same by (unfold h1; by rewrite length_alter).
    by rewrite Eb1. }
  assert (is_revealed (h2 !!! a) = true /\ is_revealed (h2 !!! b) = true)
    as [Hra Hrb].
  { rewrite Ea2, Eb2. unfold is_revealed. simpl.
    by rewrite Haf, Ham, Hbf, Hbm. }
  assert (run [Click pos1; Click pos2] (h, g) = (h2, g2)) as Erun.
  { unfold run. cbn [foldl step]. by rewrite Ec1, Ec2. }
  rewrite Erun. clear Erun Ec1 Ec2.
  split; [|split].
  - cbn [fst snd]. split; [exact Hra|]. split; [exact Hrb|].
    split; reflexivity.
  - intros k Hk. cbn zeta.
    destruct (run_ticks_waiting k (h2, g2)) as (Eg & _ & Ef); [done|].
    rewrite !(revealed_face _ _ (Ef _)), Eg. done.
  - cbn zeta. replace (Z.to_nat FPS) with (29 + 1)%nat by done.
    rewrite replicate_add, run_app.
    destruct (run_ticks_waiting 29 (h2, g2)) as (Eg & El & Ef); [done|].
    destruct (run (replicate 29 Tick) (h2, g2)) as [h3 g3].
    cbn [fst snd] in Eg, El, Ef. subst g3.
    change (run (replicate 1 Tick) ?x) with (Game.update x).
    assert (is_revealed (h3 !!! a) = true /\ is_revealed (h3 !!! b) = true)
      as [Hra3 Hrb3] by (by rewrite !(revealed_face _ _ (Ef _))).
    unfold is_revealed in Hra3, Hrb3.
    apply andb_true_iff in Hra3 as [Hf3a Hm3a], Hrb3 as [Hf3b Hm3b].
    apply negb_true_iff in Hm3a, Hm3b.
    rewrite (update_flips_back _ _ a b); try done. simpl.
    rewrite lookup_alter_other by done.
    rewrite !lookup_alter_same
      by (rewrite ?length_alter, update_animations_length, El;
          unfold h2, h1; by rewrite !length_alter).
    rewrite lookup_alter_other by done.
    unfold is_hidden. simpl.
    destruct (face_eq _ _ (update_animations_face (Game.cards g) h3 a)) as [-> ->].
    destruct (face_eq _ _ (update_animations_face (Game.cards g) h3 b)) as [-> ->].
    rewrite Hf3a, Hm3a, Hf3b, Hm3b. done.
Qed.

Lemma mismatch_flips_back_witness :
  Game.wait_time (run example_mismatch example_game).2 = FPS /\
  is_hidden
    ((run (replicate (Z.to_nat FPS) Tick) (run example_mismatch example_game)).1
       !!! 0%nat) = true.
Proof.
  destruct (mismatch_flips_back example_game (105, 25) (215, 25) 0%nat 1%nat)
    as ((_ & _ & _ & Hw) & _ & (Hh & _)).
  - apply (reachable_example []).
  - reflexivity.
  - reflexivity.
  - vm_compute. repeat constructor.
  - vm_compute. repeat constructor.
  - reflexivity.
  - reflexivity.
  - reflexivity.
  - reflexivity.
  - vm_compute. discriminate.
  - split; [exact Hw | exact Hh].
Defined.

(** ** Saving and loading *)

(** A card is built iff its five keys are there. *)
Lemma loaded_card_complete (d : card_data) :
  is_Some (loaded_card d) <-> card_complete d = true.
Proof.
  unfold loaded_card, card_complete.
  destruct (cd_x d), (cd_y d), (cd_value d), (cd_is_flipped d),
    (cd_is_matched d); simpl; split; try done; by intros [? ?].
Qed.

Lemma loaded_cards_complete (l : list card_data) :
  is_Some (loaded_cards l) <-> forallb card_complete l = true.
Proof.
  induction l as [|d l IH]; simpl; [done|].
  rewrite andb_true_iff, <- IH, <- loaded_card_complete.
  destruct (loaded_card d), (loaded_cards l); split; try done;
    try (by intros [? ?]); by intros [[? ?] [? ?]].
Qed.

(** The loop of [load_game]: with all keys present it appends one new
    object per record; otherwise it returns [False]. *)
Lemma load_cards_spec (l : list card_data) (h : heap) (g : Game.t) :
  match loaded_cards l with
  | Some cs =>
      Game.load_cards l (h, g) =
      (true, (h ++ cs,
              Game.set_cards (Game.cards g ++ seq (length h) (length cs)) g))
  | None => (Game.load_cards l (h, g)).1 = false
  end.
Proof.
  revert h g. induction l as [|d l IH]; intros h g.
  - simpl. rewrite !app_nil_r. by destruct g.
  - cbn [loaded_cards Game.load_cards]. unfold loaded_card.
    destruct (cd_x d) as [x0|]; [|done].
    destruct (cd_y d) as [y0|]; [|done].
    destruct (cd_value d) as [v|]; [|done]. unfold new_card.
    destruct (cd_is_flipped d) as [fl|]; [|done].
    destruct (cd_is_matched d) as [m|]; [|done].
    rewrite !alter_last.
    set (c := Card.mk x0 y0 v fl m (if fl || m then CARD_SIZE else 0)).
    match goal with
    | |- context [Game.load_cards l (?hh, _)] =>
        assert (hh = h ++ [c]) as -> by (unfold c; by destruct fl, m)
    end.
    specialize (IH (h ++ [c]) (Game.set_cards (Game.cards g ++ [length h]) g)).
    destruct (loaded_cards l) as [cs|]; [|done].
    rewrite IH. f_equal. f_equal; [by rewrite <- app_assoc|].
    unfold Game.set_cards. simpl. f_equal.
    rewrite <- app_assoc, length_app. simpl. do 3 f_equal. lia.
Qed.

(** What [load_game] returns on a record with all keys, and that it
    returns [False] on every other file. *)
Lemma load_game_spec (fs : storage) (h : heap) (g : Game.t) :
  match fs with
  | Some (Parsed d) =>
      match sd_moves d, sd_victory d, sd_cards d with
      | Some m, Some v, Some l =>
          match loaded_cards l with
          | Some cs =>
              Game.load_game fs (h, g) =
              (true, (h ++ cs,
                      Game.mk (seq (length h) (length cs)) None None m v 0))
          | None => (Game.load_game fs (h, g)).1 = false
          end
      | _, _, _ => (Game.load_game fs (h, g)).1 = false
      end
  | _ => (Game.load_game fs (h, g)).1 = false
  end.
Proof.
  destruct fs as [[|d]|]; [done| |done]. unfold Game.load_game.
  destruct (sd_moves d) as [m|]; [|done].
  destruct (sd_victory d) as [v|]; [|by destruct (sd_cards d)].
  destruct (sd_cards d) as [l|]; [|done].
  pose proof (load_cards_spec l h
    (Game.set_cards [] (Game.set_victory v (Game.set_moves m g)))) as H.
  destruct (loaded_cards l) as [cs|].
  - rewrite H. done.
  - destruct (Game.load_cards l _) as [[|] [h' g']]; done.
Qed.

(** *** The round trip (C2) *)

(** The records [save_game] writes have all their keys. *)
Lemma loaded_cards_records (cs : list Card.t) :
  loaded_cards (Game.card_record <$> cs) = Some (settled <$> cs).
Proof.
  induction cs as [|c cs IH]; [done|].
  rewrite !fmap_cons. cbn [loaded_cards]. rewrite IH. done.
Qed.

(** C2.  Loading the file that [save_game] wrote succeeds, whatever game it
    is loaded into, and gives a game whose cards have, in the same order,
    the positions, symbols and flipped and matched flags of the saved ones,
    with the saved [moves] and [victory], no selection and [wait_time] 0. *)
Theorem load_after_save (s s0 : Game.state) (fs : storage) :
  exists s', Game.load_game (Game.save_game s fs) s0 = (true, s') /\
    layout <$> tiles s' = layout <$> tiles s /\
    face <$> tiles s' = face <$> tiles s /\
    Game.moves s'.2 = Game.moves s.2 /\ Game.victory s'.2 = Game.victory s.2 /\
    Game.first_selection s'.2 = None /\ Game.second_selection s'.2 = None /\
    Game.wait_time s'.2 = 0.
Proof.
  destruct s0 as [h0 g0].
  pose proof (load_game_spec (Game.save_game s fs) h0 g0) as H.
  unfold Game.save_game, Game.save_record in H. cbn [sd_moves sd_victory sd_cards] in H.
  assert ((fun a => Game.card_record (s.1 !!! a)) <$> Game.cards s.2
          = Game.card_record <$> tiles s) as E
    by (unfold tiles; by rewrite <- list_fmap_compose).
  rewrite E, loaded_cards_records in H.
  unfold Game.save_game, Game.save_record. rewrite E.
  eexists. split; [exact H|].
  match goal with
  | |- context [tiles ?s'] =>
      assert (tiles s' = settled <$> tiles s) as ->
        by (unfold tiles at 1; cbn [fst snd Game.cards];
            apply tiles_of_new_cards)
  end.
  rewrite <- !list_fmap_compose. cbn [fst snd Game.moves Game.victory
    Game.first_selection Game.second_selection Game.wait_time].
  split; [by apply list_fmap_ext|]. split; [by apply list_fmap_ext|]. done.
Qed.

(** *** Records that are refused (C4) *)


(** The embedded [load_game] returns [True] exactly on the records with
    all keys; the source's does so for card coordinates that are C
    integers (see [record_in_range]). *)
Lemma load_game_accepts (d : save_data) (s : Game.state) :
  (Game.load_game (Some (Parsed d)) s).1 = record_complete d.
Proof.
  destruct s as [h g]. pose proof (load_game_spec (Some (Parsed d)) h g) as H.
  cbn match in H. unfold record_complete.
  destruct (sd_moves d) as [m|]; [|by rewrite H].
  destruct (sd_victory d) as [v|]; [|by rewrite H].
  destruct (sd_cards d) as [l|]; [|by rewrite H].
  pose proof (loaded_cards_complete l) as Hl.
  destruct (loaded_cards l) as [cs|]; rewrite H; simpl.
  - symmetry. apply Hl. by eexists.
  - destruct (forallb card_complete l); [|done].
    destruct Hl as [_ [? ?]]; done.
Qed.


(** The loop of [load_game] on a list with an incomplete record: it stops
    at the first one, with the cards of the records before it. *)
Lemma load_cards_partial (l : list card_data) (h : heap) (g : Game.t) :
  forallb card_complete l = false ->
  exists k bad cs new,
    l !! k = Some bad /\ card_complete bad = false /\
    loaded_cards (take k l) = Some cs /\
    Game.load_cards l (h, g) =
    (false, (h ++ cs ++ new,
             Game.set_cards (Game.cards g ++ seq (length h) (length cs)) g)).
Proof.
  revert h g. induction l as [|d l IH]; intros h g; [done|].
  cbn [forallb]. destruct (card_complete d) eqn:Ed.
  - rewrite andb_true_l. intros Hl.
    apply loaded_card_complete in Ed as [c Ec].
    cbn [Game.load_cards]. pose proof Ec as Ec'. unfold loaded_card in Ec'.
    destruct (cd_x d) as [x0|]; [|done].
    destruct (cd_y d) as [y0|]; [|done].
    destruct (cd_value d) as [v|]; [|done]. unfold new_card.
    destruct (cd_is_flipped d) as [fl|]; [|done].
    destruct (cd_is_matched d) as [m|]; [|done].
    injection Ec' as Ec'. rewrite !alter_last.
    match goal with
    | |- context [Game.load_cards l (?hh, _)] =>
        assert (hh = h ++ [c]) as -> by (rewrite <- Ec'; by destruct fl, m)
    end.
    destruct (IH (h ++ [c]) (Game.set_cards (Game.cards g ++ [length h]) g) Hl)
      as (k & bad & cs & new & Hk & Hbad & Hcs & ->).
    exists (S k), bad, (c :: cs), new. split; [done|]. split; [done|].
    split.
    + cbn [take loaded_cards]. by rewrite Ec, Hcs.
    + f_equal. f_equal; [by rewrite <- app_assoc|].
      unfold Game.set_cards. simpl. f_equal.
      rewrite <- app_assoc, length_app. simpl. do 3 f_equal. lia.
  - intros _. exists 0%nat, d, [].
    cbn [Game.load_cards]. pose proof Ed as Ed'. unfold card_complete in Ed'.
    unfold new_card.
    destruct (cd_x d) as [x0|];
      [|exists []; rewrite !app_nil_r; by destruct g].
    destruct (cd_y d) as [y0|];
      [|exists []; rewrite !app_nil_r; by destruct g].
    destruct (cd_value d) as [v|];
      [|exists []; rewrite !app_nil_r; by destruct g].
    destruct (cd_is_flipped d) as [fl|].
    + destruct (cd_is_matched d) as [m|]; [done|].
      exists [Card.set_is_flipped fl (Card.init x0 y0 v)].
      rewrite alter_last. cbn [take loaded_cards length seq app].
      rewrite (app_nil_r (Game.cards g)).
      split; [done|]. split; [done|]. split; [done|]. by destruct g.
    + exists [Card.init x0 y0 v]. cbn [take loaded_cards length seq app].
      rewrite (app_nil_r (Game.cards g)).
      split; [done|]. split; [done|]. split; [done|]. by destruct g.
Qed.



(** *** A saved card that is face up (C10) *)

(** The card loaded from record number [i] is card number [i]. *)
Lemma loaded_cards_lookup (l : list card_data) (cs : list Card.t) (i : nat)
    (d : card_data) :
  loaded_cards l = Some cs -> l !! i = Some d ->
  exists c, cs !! i = Some c /\ loaded_card d = Some c.
Proof.
  revert cs i. induction l as [|d' l IH]; intros cs i; [done|].
  cbn [loaded_cards].
  destruct (loaded_card d') as [c'|] eqn:E; [|done].
  destruct (loaded_cards l) as [cs'|]; [|done]. intros [= <-].
  destruct i as [|i]; simpl.
  - intros [= <-]. by exists c'.
  - apply IH. done.
Qed.

(** C10.  When [load_game] accepts a record whose card number [i] is
    flipped and not matched, the loaded game has no selection and
    [wait_time] 0, and its card number [i] stays flipped and unmatched
    through every sequence of clicks and updates; so the cards are never all
    matched, and [victory] keeps the value the record gave it. *)
Theorem loaded_revealed_card_stays (d : save_data) (l : list card_data)
    (i : nat) (cd : card_data) (s0 s : Game.state) :
  Game.load_game (Some (Parsed d)) s0 = (true, s) ->
  sd_cards d = Some l -> l !! i = Some cd ->
  cd_is_flipped cd = Some true -> cd_is_matched cd = Some false ->
  Game.first_selection s.2 = None /\ Game.second_selection s.2 = None /\
  Game.wait_time s.2 = 0 /\
  exists a, Game.cards s.2 !! i = Some a /\
    forall es, let s' := run es s in
      Game.cards s'.2 !! i = Some a /\
      Card.is_flipped (s'.1 !!! a) = true /\
      Card.is_matched (s'.1 !!! a) = false /\
      Game.all_matched s'.1 (Game.cards s'.2) = false /\
      Game.victory s'.2 = Game.victory s.2.
Proof.
  intros Hload Hl Hi Hfl Hm. destruct s0 as [h0 g0].
  pose proof (load_game_spec (Some (Parsed d)) h0 g0) as H.
  cbn match in H. rewrite Hl in H.
  destruct (sd_moves d) as [m|]; [|by rewrite Hload in H].
  destruct (sd_victory d) as [v|]; [|by rewrite Hload in H].
  destruct (loaded_cards l) as [cs|] eqn:Ecs; [|by rewrite Hload in H].
  rewrite Hload in H. injection H as ->.
  destruct (loaded_cards_lookup l cs i cd Ecs Hi) as (c & Hc & Hcd).
  unfold loaded_card in Hcd. rewrite Hfl, Hm in Hcd.
  destruct (cd_x cd), (cd_y cd), (cd_value cd); try done.
  injection Hcd as <-.
  cbn [fst snd Game.first_selection Game.second_selection Game.wait_time
       Game.cards].
  repeat split; try done.
  pose proof (lookup_lt_Some _ _ _ Hc) as Hlt.
  exists (length h0 + i)%nat.
  assert (seq (length h0) (length cs) !! i = Some (length h0 + i)%nat) as Hseq
    by (by apply lookup_seq_lt).
  split; [done|].
  assert (stuck (length h0 + i)%nat
            (h0 ++ cs, Game.mk (seq (length h0) (length cs)) None None m v 0))
    as Hst.
  { unfold stuck. cbn [fst snd Game.cards Game.first_selection
                       Game.second_selection].
    rewrite lookup_total_app_r by lia.
    replace (length h0 + i - length h0)%nat with i by lia.
    rewrite (list_lookup_total_correct _ _ _ Hc).
    repeat split; try done. apply list_elem_of_lookup. by exists i. }
  intros es.
  destruct (run_stuck es _ _ Hst) as [(Hin & Hf' & Hm' & _) Hv'].
  destruct (run_board es (h0 ++ cs,
              Game.mk (seq (length h0) (length cs)) None None m v 0))
    as (Hcards & _).
  cbn zeta. rewrite Hcards. repeat split; try done.
  rewrite <- Hcards. by apply (all_matched_stuck (length h0 + i)%nat).
Qed.

Lemma loaded_revealed_card_stays_witness :
  Card.is_flipped ((run example_two_moves example_loaded).1 !!! 16%nat) = true.
Proof.
  destruct (loaded_revealed_card_stays example_saved
              (default [] (sd_cards example_saved)) 0
              (mk_card_data (Some 105) (Some 25) (Some "8"%string) (Some true)
                 (Some false))
              example_game example_loaded)
    as (_ & _ & _ & a & Ha & H).
  - vm_compute. reflexivity.
  - vm_compute. reflexivity.
  - vm_compute. reflexivity.
  - reflexivity.
  - reflexivity.
  - vm_compute in Ha. injection Ha as <-.
    destruct (H example_two_moves) as (_ & Hf & _). exact Hf.
Defined.

(** ** Dealing pairs (C9) *)


Lemma fmap_zip_with_right {A B C D : Type} (g : C -> D) (f : A -> B -> C)
    (p : B -> D) (l : list A) (k : list B) :
  (forall a b, g (f a b) = p b) -> (length k <= length l)%nat ->
  g <$> zip_with f l k = p <$> k.
Proof.
  intros Hg. revert l. induction k as [|b k IH]; intros [|a l] Hl; simpl in *;
    try done; [lia|].
  rewrite Hg, IH by lia. done.
Qed.

(** Occurrences of a symbol in a list. *)
Lemma count_absent (v : string) (l : list string) :
  v ∉ l -> length (filter (fun w => w = v) l) = 0%nat.
Proof.
  induction l as [|w l IH]; [done|].
  intros [Hw Hl]%not_elem_of_cons. rewrite filter_cons.
  rewrite decide_False by done. auto.
Qed.

Lemma count_NoDup (v : string) (l : list string) :
  NoDup l -> v ∈ l -> length (filter (fun w => w = v) l) = 1%nat.
Proof.
  induction 1 as [|w l Hw Hl IH]; [by intros ?%elem_of_nil|].
  rewrite filter_cons. intros [->|Hv]%elem_of_cons.
  - rewrite decide_True by done. simpl. by rewrite count_absent.
  - rewrite decide_False by (by intros ->). auto.
Qed.

(** The grid of the source is square: [rows = cols = grid]. *)
Lemma init_grid_succeeds (grid : nat) (values : list string) (h : heap) :
  is_Some (Game.init_grid grid values h) <-> (grid * grid <= length values)%nat.
Proof.
  rewrite init_grid_spec. case_decide; split; intros H'; done.
Qed.





(** ** The board through a game *)

(** The cards of a game keep their order, positions and symbols. *)
Lemma same_board_tiles (s s' : Game.state) :
  same_board s s' -> layout <$> tiles s' = layout <$> tiles s.
Proof.
  intros (Hc & _ & Hl). unfold tiles. rewrite Hc, <- !list_fmap_compose.
  apply list_fmap_ext. intros i a _. apply Hl.
Qed.

Lemma layout_value (l l' : list Card.t) :
  layout <$> l = layout <$> l' -> Card.value <$> l = Card.value <$> l'.
Proof.
  intros H.
  assert (forall k : list Card.t, Card.value <$> k = snd <$> (layout <$> k)) as E.
  { intros k. rewrite <- list_fmap_compose. by apply list_fmap_ext. }
  by rewrite !E, H.
Qed.

(** The symbols of the dealt cards are the shuffled values, from the back. *)
Lemma dealt_values (grid : nat) (values : list string) :
  (length values <= grid * grid)%nat ->
  Card.value <$> dealt grid values = reverse values.
Proof.
  intros Hl. unfold dealt.
  rewrite (fmap_zip_with_right Card.value _ id); [apply list_fmap_id | done |].
  by rewrite length_reverse, length_cells.
Qed.

Lemma count_values (v : string) (l : list Card.t) :
  length (filter (fun c => Card.value c = v) l) =
  length (filter (fun w => w = v) (Card.value <$> l)).
Proof.
  induction l as [|c l IH]; [done|].
  rewrite fmap_cons, !filter_cons. repeat case_decide; simpl; congruence.
Qed.

(** X1.  Through every run of clicks and updates of a freshly dealt game
    the list of cards and the position and symbol of every card stay as they
    were dealt: there are sixteen cards, and each of the eight symbols is on
    exactly two of them. *)
Theorem symbols_stay_paired (s0 : Game.state) (es : list event) :
  fresh s0 ->
  let s := run es s0 in
  Game.cards s.2 = Game.cards s0.2 /\
  layout <$> tiles s = layout <$> tiles s0 /\
  length (tiles s) = 16%nat /\
  forall v, v ∈ CARD_VALUES ->
    length (filter (fun c => Card.value c = v) (tiles s)) = 2%nat.
Proof.
  intros (values & h0 & Hp & Hi) s.
  pose proof (run_board es s0) as Hb. fold s in Hb.
  pose proof (same_board_tiles _ _ Hb) as Ht.
  destruct (init_grid_tiles _ _ _ _ Hi) as (Hle & _ & Hd).
  assert (length values = 16%nat) as Hlen by (by rewrite Hp).
  split; [apply Hb|]. split; [done|]. split.
  - rewrite <- (length_fmap layout), Ht, length_fmap, Hd.
    by apply length_dealt.
  - intros v Hv. rewrite count_values, (layout_value _ _ Ht), Hd.
    rewrite dealt_values by (rewrite Hlen; unfold GRID_SIZE; lia).
    rewrite reverse_Permutation, Hp, list.filter_app, length_app.
    rewrite count_NoDup; [done | | done].
    apply (bool_decide_unpack _). vm_compute. exact I.
Qed.

Lemma symbols_stay_paired_witness :
  length (tiles (run example_two_moves example_game)) = 16%nat.
Proof.
  destruct (symbols_stay_paired example_game example_two_moves fresh_example)
    as (_ & _ & H & _).
  exact H.
Defined.

(** ** Matched cards *)

Lemma alter_matched (f : Card.t -> Card.t) (h : heap) (a c : addr) :
  (forall k, Card.is_matched k = true -> Card.is_matched (f k) = true) ->
  Card.is_matched (h !!! c) = true ->
  Card.is_matched (alter f a h !!! c) = true.
Proof.
  intros Hf Hc. rewrite list_lookup_total_alter.
  case_decide as E; [destruct E as [-> _]; by apply Hf | done].
Qed.

Lemma select_card_matched (a t : addr) (s : Game.state) :
  Card.is_matched (s.1 !!! t) = false ->
  Card.is_matched (s.1 !!! a) = true ->
  Card.is_matched ((Game.select_card t s).1 !!! a) = true /\
  Card.is_flipped ((Game.select_card t s).1 !!! a) = Card.is_flipped (s.1 !!! a).
Proof.
  destruct s as [h g]. simpl. intros Ht Ha.
  assert (t <> a) as Hta by (intros ->; congruence).
  unfold Game.select_card.
  destruct (Game.first_selection g) as [f|].
  - destruct (_ && _); [|done].
    destruct (bool_decide _); simpl.
    + split.
      * do 2 (apply alter_matched; [done|]).
        by rewrite lookup_alter_other.
      * rewrite !(lookup_alter_proj Card.is_flipped) by done.
        by rewrite lookup_alter_other.
    + by rewrite lookup_alter_other.
  - simpl. by rewrite lookup_alter_other.
Qed.

Lemma flip_unless_matched_matched_card (o : option addr) (h : heap) (a : addr) :
  Card.is_matched (h !!! a) = true ->
  Game.flip_unless_matched o h !!! a = h !!! a.
Proof.
  intros Ha. destruct o as [f|]; simpl; [|done].
  destruct (decide (f = a)) as [->|Hne].
  - by rewrite Ha.
  - destruct (negb _); [by apply lookup_alter_other | done].
Qed.

Lemma step_matched (e : event) (a : addr) (s : Game.state) :
  Card.is_matched (s.1 !!! a) = true ->
  Card.is_matched ((step e s).1 !!! a) = true /\
  Card.is_flipped ((step e s).1 !!! a) = Card.is_flipped (s.1 !!! a).
Proof.
  intros Ha. destruct e as [pos|]; simpl.
  - unfold Game.handle_click. destruct (_ || _); [done|].
    induction (Game.cards s.2) as [|t l IH]; simpl; [done|].
    destruct (_ && _) eqn:E; [|exact IH].
    apply select_card_matched; [|done].
    apply andb_true_iff in E as [_ E]. by apply negb_true_iff in E.
  - destruct s as [h g]. simpl in *. unfold Game.update.
    destruct (face_eq _ _ (update_animations_face (Game.cards g) h a)) as [Ef Em].
    set (h1 := Game.update_animations (Game.cards g) h) in *. clearbody h1.
    rewrite <- Ef, <- Em in *. clear Ef Em.
    assert (Card.is_matched (h1 !!! a) = true) as Ha1 by congruence.
    destruct (0 <? Game.wait_time g); [|done].
    destruct (_ =? 0); [|done].
    unfold Game.flip_back_cards. simpl. destruct (_ && _); [|done]. simpl.
    rewrite flip_unless_matched_matched_card;
      rewrite flip_unless_matched_matched_card; done.
Qed.

(** X2.  From any state, a card that is matched stays matched through
    every run of clicks and updates, and its [is_flipped] flag is never
    written again. *)
Theorem matched_is_permanent (s : Game.state) (es : list event) (a : addr) :
  Card.is_matched (s.1 !!! a) = true ->
  Card.is_matched ((run es s).1 !!! a) = true /\
  Card.is_flipped ((run es s).1 !!! a) = Card.is_flipped (s.1 !!! a).
Proof.
  revert s. induction es as [|e es IH]; intros s Ha; [done|]. simpl.
  destruct (step_matched e a s Ha) as [Hm Hf].
  destruct (IH _ Hm) as [Hm' Hf']. split; [done | congruence].
Qed.

Lemma matched_is_permanent_witness :
  Card.is_matched
    ((run example_two_moves (run example_match example_game)).1 !!! 0%nat) = true.
Proof.
  apply (matched_is_permanent (run example_match example_game)
           example_two_moves 0%nat).
  vm_compute. reflexivity.
Defined.

(** ** The move counter, from any state *)

Lemma select_card_moves (a : addr) (s : Game.state) :
  Game.moves s.2 <= Game.moves (Game.select_card a s).2 <= Game.moves s.2 + 1.
Proof.
  destruct s as [h g]. unfold Game.select_card.
  destruct (Game.first_selection g) as [f|]; [|simpl; lia].
  destruct (_ && _); [|simpl; lia].
  destruct (bool_decide _); simpl; [|lia].
  rewrite (proj1 (proj2 (proj2 (check_victory_selection _ _)))). simpl. lia.
Qed.

Lemma handle_click_moves (pos : point) (s : Game.state) :
  Game.moves s.2 <= Game.moves (Game.handle_click pos s).2 <= Game.moves s.2 + 1.
Proof.
  unfold Game.handle_click. destruct (_ || _); [lia|].
  induction (Game.cards s.2) as [|t l IH]; simpl; [lia|].
  destruct (_ && _); [apply select_card_moves | exact IH].
Qed.

(** X3.  From any state, [moves] never goes down during a run and goes up
    by at most one for each click of the run; a run of updates alone leaves
    it as it is. *)
Theorem moves_bounded_by_clicks (s : Game.state) (es : list event) :
  Game.moves s.2 <= Game.moves (run es s).2 <=
  Game.moves s.2 + Z.of_nat (clicks es).
Proof.
  revert s. induction es as [|e es IH]; intros s; [simpl; lia|].
  specialize (IH (step e s)).
  change (run (e :: es) s) with (run es (step e s)).
  destruct e as [pos|]; cbn [clicks step] in *.
  - pose proof (handle_click_moves pos s). lia.
  - rewrite update_moves in IH. lia.
Qed.

(** ** How long a flip takes *)

Lemma update_animation_progress (c : Card.t) :
  0 <= Card.flip_progress c <= CARD_SIZE ->
  Card.flip_progress (Card.update_animation c) =
  if Card.is_flipped c || Card.is_matched c
  then Z.min (Card.flip_progress c + ANIMATION_SPEED) CARD_SIZE
  else Z.max (Card.flip_progress c - ANIMATION_SPEED) 0.
Proof.
  intros H. unfold Card.update_animation, CARD_SIZE, ANIMATION_SPEED in *.
  repeat case_match; simpl;
    repeat match goal with
           | H : (_ <? _) = true |- _ => apply Z.ltb_lt in H
           | H : (_ <? _) = false |- _ => apply Z.ltb_ge in H
           end; lia.
Qed.

(** X4.  [n] calls of [update_animation] on a card whose progress is
    within [0, CARD_SIZE] leave its position, symbol and flags alone and move
    the progress by [ANIMATION_SPEED] a call, stopping at the bound: up to
    [CARD_SIZE] for a card that is flipped or matched, down to 0 for the
    others.  Thirteen calls are enough to reach the bound from anywhere. *)
Theorem animation_settles (c : Card.t) (n : nat) :
  0 <= Card.flip_progress c <= CARD_SIZE ->
  let c' := Nat.iter n Card.update_animation c in
  layout c' = layout c /\ face c' = face c /\
  Card.flip_progress c' =
    (if Card.is_flipped c || Card.is_matched c
     then Z.min (Card.flip_progress c + ANIMATION_SPEED * Z.of_nat n) CARD_SIZE
     else Z.max (Card.flip_progress c - ANIMATION_SPEED * Z.of_nat n) 0) /\
  ((13 <= n)%nat -> Card.flip_progress c' = animation_target c).
Proof.
  intros Hr.
  assert (layout (Nat.iter n Card.update_animation c) = layout c /\
          face (Nat.iter n Card.update_animation c) = face c /\
          Card.flip_progress (Nat.iter n Card.update_animation c) =
            (if Card.is_flipped c || Card.is_matched c
             then Z.min (Card.flip_progress c + ANIMATION_SPEED * Z.of_nat n) CARD_SIZE
             else Z.max (Card.flip_progress c - ANIMATION_SPEED * Z.of_nat n) 0))
    as (Hl & Hf & Hp).
  { induction n as [|n (IHl & IHf & IHp)].
    - simpl. repeat split. destruct (_ || _); lia.
    - rewrite Nat.iter_succ.
      rewrite update_animation_layout, update_animation_face.
      repeat split; try done.
      rewrite update_animation_progress.
      + destruct (face_eq _ _ IHf) as [-> ->]. rewrite IHp.
        unfold CARD_SIZE, ANIMATION_SPEED in *. destruct (_ || _); lia.
      + rewrite IHp. unfold CARD_SIZE, ANIMATION_SPEED in *.
        destruct (_ || _); lia. }
  cbn zeta. repeat split; try done.
  intros Hn. rewrite Hp. unfold animation_target, CARD_SIZE, ANIMATION_SPEED in *.
  destruct (_ || _); lia.
Qed.

Lemma animation_settles_witness :
  Card.flip_progress
    (Nat.iter 13 Card.update_animation (Card.mk 105 25 "8" true false 0)) = 100.
Proof.
  destruct (animation_settles (Card.mk 105 25 "8" true false 0) 13)
    as (_ & _ & _ & H).
  - unfold CARD_SIZE. simpl. lia.
  - apply H. lia.
Defined.

(** The loop of [update] over distinct cards animates each of them once. *)
Lemma update_animations_once (l : list addr) (h : heap) (a : addr) :
  NoDup l -> (forall c, c ∈ l -> (c < length h)%nat) ->
  Game.update_animations l h !!! a =
  if decide (a ∈ l) then Card.update_animation (h !!! a) else h !!! a.
Proof.
  intros Hnd. revert h. induction Hnd as [|b l Hb Hnd IH]; intros h Hl.
  - case_decide as E; [by apply elem_of_nil in E | done].
  - unfold Game.update_animations in *. cbn [foldl]. rewrite IH.
    + destruct (decide (a = b)) as [->|Hne].
      * case_decide; [done|]. case_decide as E; [|by destruct E; left].
        apply lookup_alter_same. apply Hl. by left.
      * rewrite lookup_alter_other by done.
        repeat case_decide; try done.
        -- exfalso. match goal with H : a ∉ b :: l |- _ => apply H end. by right.
        -- exfalso. match goal with H : a ∈ b :: l |- _ =>
             apply elem_of_cons in H as [?|?] end; done.
    + intros c Hc. rewrite length_alter. apply Hl. by right.
Qed.

Lemma flip_unless_matched_progress (o : option addr) (h : heap) (c : addr) :
  Card.flip_progress (Game.flip_unless_matched o h !!! c) =
  Card.flip_progress (h !!! c).
Proof.
  destruct o as [a|]; simpl; [|reflexivity].
  destruct (negb _); [by apply lookup_alter_proj | reflexivity].
Qed.

(** X5.  One [update] of a game reached by clicks and updates moves the
    animation of every card of the game by exactly one step of
    [update_animation], also in the update that flips a mismatched pair
    back. *)
Theorem update_animates_each_card_once (s : Game.state) (a : addr) :
  reachable s -> a ∈ Game.cards s.2 ->
  Card.flip_progress ((Game.update s).1 !!! a) =
  Card.flip_progress (Card.update_animation (s.1 !!! a)).
Proof.
  intros Hs%reachable_consistent Ha. destruct s as [h g].
  pose proof (update_animations_once (Game.cards g) h a (cs_nodup _ Hs)
                (cs_bound _ Hs)) as E.
  rewrite decide_True in E by done. cbn [fst snd] in *.
  unfold Game.update.
  destruct (0 <? Game.wait_time g); [|by rewrite <- E].
  destruct (_ =? 0); [|by rewrite <- E].
  unfold Game.flip_back_cards. cbn [Game.first_selection Game.second_selection
    Game.set_wait_time].
  destruct (_ && _); [|by rewrite <- E]. cbn [fst].
  by rewrite !flip_unless_matched_progress, <- E.
Qed.

Lemma update_animates_each_card_once_witness :
  Card.flip_progress
    ((Game.update (run [Click (105, 25)] example_game)).1 !!! 0%nat) = 8.
Proof.
  rewrite (update_animates_each_card_once (run [Click (105, 25)] example_game) 0).
  - reflexivity.
  - apply reachable_example.
  - vm_compute. repeat constructor.
Defined.

(** ** A won game *)

Lemma won_step (e : event) (s : Game.state) :
  Game.victory s.2 = true -> Game.wait_time s.2 <= 0 ->
  (step e s).2 = s.2 /\
  forall c, face ((step e s).1 !!! c) = face (s.1 !!! c) /\
            layout ((step e s).1 !!! c) = layout (s.1 !!! c).
Proof.
  intros Hv Hw. destruct e as [pos|]; simpl.
  - unfold Game.handle_click. rewrite Hv, orb_true_r. done.
  - destruct s as [h g]. simpl in *. unfold Game.update.
    rewrite (proj2 (Z.ltb_ge 0 _)) by done. simpl. split; [done|].
    intros c. split; [apply update_animations_face | apply update_animations_layout].
Qed.

(** X6.  Once a game reached by clicks and updates is won, no click and
    no update changes the game object ([moves], [victory], the selections,
    [wait_time], the list of cards) or the flags, position or symbol of any
    card; only the animation goes on. *)
Theorem victory_is_final (s : Game.state) (es : list event) :
  reachable s -> Game.victory s.2 = true ->
  (run es s).2 = s.2 /\
  forall c, face ((run es s).1 !!! c) = face (s.1 !!! c) /\
            layout ((run es s).1 !!! c) = layout (s.1 !!! c).
Proof.
  intros Hs%reachable_consistent Hv.
  assert (Game.wait_time s.2 <= 0) as Hw.
  { destruct (cs_wait s Hs) as [_ Hw].
    destruct (Game.second_selection s.2) as [b|] eqn:Eb.
    - destruct (cs_second s Hs b Eb) as (Hb & Hr & _).
      rewrite (cs_victory s Hs) in Hv. specialize (Hv b Hb).
      unfold is_revealed in Hr. rewrite Hv in Hr. by rewrite andb_false_r in Hr.
    - destruct (decide (0 < Game.wait_time s.2)) as [Hp|Hp]; [|lia].
      by apply Hw in Hp. }
  clear Hs. revert s Hv Hw. induction es as [|e es IH]; intros s Hv Hw; [done|].
  change (run (e :: es) s) with (run es (step e s)).
  destruct (won_step e s Hv Hw) as [Eg Ec].
  destruct (IH (step e s)) as [Eg' Ec']; [by rewrite Eg | by rewrite Eg |].
  split; [congruence|]. intros c.
  destruct (Ec' c) as [-> ->]. apply Ec.
Qed.

Lemma victory_is_final_witness :
  (run example_two_moves (run example_win example_game)).2
  = (run example_win example_game).2.
Proof.
  apply (victory_is_final (run example_win example_game) example_two_moves).
  - apply reachable_example.
  - vm_compute. reflexivity.
Defined.

(** ** A match (scenario C) *)

(** X7.  In a game reached by clicks and updates with nothing selected, a
    click on a hidden card and then a click on another hidden card with the
    same symbol leave both cards flipped and matched and every other card
    untouched; [moves] is one more, no wait is started, the selections are
    empty again, and [victory] is set iff all cards are now matched. *)
Theorem match_resolves_at_once (s : Game.state) (pos1 pos2 : point) (a b : addr) :
  reachable s ->
  Game.first_selection s.2 = None -> Game.second_selection s.2 = None ->
  a ∈ Game.cards s.2 -> b ∈ Game.cards s.2 -> a <> b ->
  Card.collidepoint (s.1 !!! a) pos1 = true -> is_hidden (s.1 !!! a) = true ->
  Card.collidepoint (s.1 !!! b) pos2 = true -> is_hidden (s.1 !!! b) = true ->
  Card.value (s.1 !!! a) = Card.value (s.1 !!! b) ->
  let s1 := run [Click pos1; Click pos2] s in
  face (s1.1 !!! a) = (true, true) /\ face (s1.1 !!! b) = (true, true) /\
  (forall c, c <> a -> c <> b -> s1.1 !!! c = s.1 !!! c) /\
  Game.moves s1.2 = Game.moves s.2 + 1 /\ Game.wait_time s1.2 = 0 /\
  Game.first_selection s1.2 = None /\ Game.second_selection s1.2 = None /\
  Game.victory s1.2 = Game.all_matched s1.1 (Game.cards s1.2).
Proof.
  intros Hr E1 E2 Ha Hb Hab Hca Hha Hcb Hhb Hv.
  pose proof (reachable_consistent s Hr) as Hc.
  pose proof (reachable_separate s Hr) as Hsep.
  destruct s as [h g]. cbn [fst snd] in *.
  pose proof (cs_bound _ Hc a Ha) as Hal.
  pose proof (cs_bound _ Hc b Hb) as Hbl. cbn [fst snd] in Hal, Hbl.
  assert (Game.wait_time g = 0) as Hw.
  { destruct (cs_wait _ Hc) as [Hw1 Hw2]. cbn [fst snd] in *.
    destruct (decide (0 < Game.wait_time g)) as [Hp|Hp]; [|lia].
    by apply Hw2 in Hp. }
  assert (Card.is_flipped (h !!! a) = false /\ Card.is_matched (h !!! a) = false)
    as [Haf Ham].
  { unfold is_hidden in Hha. apply andb_true_iff in Hha as [H1 H2].
    by apply negb_true_iff in H1, H2. }
  assert (Card.is_flipped (h !!! b) = false /\ Card.is_matched (h !!! b) = false)
    as [Hbf Hbm].
  { unfold is_hidden in Hhb. apply andb_true_iff in Hhb as [H1 H2].
    by apply negb_true_iff in H1, H2. }
  assert (Game.victory g = false) as Hvic.
  { destruct (Game.victory g) eqn:E; [|done].
    pose proof (cs_victory _ Hc) as Hcv. cbn [fst snd] in Hcv.
    rewrite Hcv in E. specialize (E a Ha). congruence. }
  assert (Game.handle_click pos1 (h, g) =
          (alter Card.flip a h, Game.set_first_selection (Some a) g)) as Ec1.
  { unfold Game.handle_click. cbn [fst snd]. rewrite Hw, Hvic. simpl.
    pose proof (click_loop_target pos1 (h, g) a Hsep Ha) as El.
    cbn [fst snd] in El. rewrite El by (by apply pickable_spec).
    unfold Game.select_card. by rewrite E1. }
  set (h1 := alter Card.flip a h) in *.
  set (g1 := Game.set_first_selection (Some a) g) in *.
  assert (h1 !!! b = h !!! b) as Eb1 by (by apply lookup_alter_other).
  assert (h1 !!! a = Card.flip (h !!! a)) as Ea1 by (by apply lookup_alter_same).
  set (h3 := alter (Card.set_is_matched true) b
               (alter (Card.set_is_matched true) a (alter Card.flip b h1))).
  set (g2 := Game.set_moves (Game.moves g + 1)
               (Game.set_second_selection (Some b) g1)).
  assert (Game.handle_click pos2 (h1, g1) =
          (h3, Game.reset_selection (Game.check_victory h3 g2))) as Ec2.
  { assert (separate (h1, g1)) as Hsep1.
    { rewrite <- Ec1.
      eapply separate_same_board; [apply (handle_click_board pos1)|]. done. }
    unfold Game.handle_click. cbn [fst snd]. unfold g1 at 1 2.
    cbn [Game.wait_time Game.victory Game.set_first_selection].
    rewrite Hw, Hvic. simpl.
    pose proof (click_loop_target pos2 (h1, g1) b Hsep1 Hb) as El.
    simpl in El. rewrite El by (apply pickable_spec; by rewrite Eb1).
    unfold Game.select_card. unfold g1.
    cbn [Game.first_selection Game.second_selection Game.set_first_selection
         Game.moves].
    rewrite E2.
    rewrite bool_decide_eq_true_2 by done.
    rewrite (bool_decide_eq_false_2 (b = a)) by done. simpl.
    rewrite lookup_alter_other by done.
    rewrite lookup_alter_same by (unfold h1; by rewrite length_alter).
    rewrite Ea1, Eb1.
    rewrite bool_decide_eq_true_2; [done|]. simpl. done. }
  assert (forall c, h3 !!! c =
            if decide (c = b) then Card.set_is_matched true (Card.flip (h !!! b))
            else if decide (c = a) then Card.set_is_matched true (Card.flip (h !!! a))
            else h !!! c) as Eh.
  { intros c. unfold h3, h1.
    rewrite !alter_at by (rewrite ?length_alter; done).
    repeat case_decide; subst; done. }
  assert (run [Click pos1; Click pos2] (h, g) =
          (h3, Game.reset_selection (Game.check_victory h3 g2))) as Erun.
  { unfold run. cbn [foldl step]. by rewrite Ec1, Ec2. }
  cbn zeta. rewrite Erun. clear Erun Ec1 Ec2. cbn [fst snd].
  pose proof (check_victory_selection h3 g2) as (_ & _ & Em & Ew).
  pose proof (check_victory_cards h3 g2) as Ecs.
  clearbody h3.
  split; [|split; [|split]].
  - rewrite Eh. rewrite decide_False by done. rewrite decide_True by done.
    unfold face. simpl. by rewrite Haf.
  - rewrite Eh. rewrite decide_True by done. unfold face. simpl. by rewrite Hbf.
  - intros c Hca' Hcb'. rewrite Eh. by rewrite !decide_False.
  - cbn [Game.reset_selection Game.set_second_selection Game.set_first_selection
         Game.moves Game.wait_time Game.first_selection Game.second_selection
         Game.victory Game.cards].
    rewrite Em, Ew, Ecs. subst g2 g1. simpl.
    repeat split; try done.
    unfold Game.check_victory. simpl.
    by destruct (Game.all_matched h3 (Game.cards g)).
Qed.

Lemma match_resolves_at_once_witness :
  face ((run example_match example_game).1 !!! 0%nat) = (true, true) /\
  Game.wait_time (run example_match example_game).2 = 0.
Proof.
  destruct (match_resolves_at_once example_game (105, 25) (105, 245) 0%nat 8%nat)
    as (Ha & _ & _ & _ & Hw & _).
  - apply (reachable_example []).
  - reflexivity.
  - reflexivity.
  - vm_compute. repeat constructor.
  - vm_compute. repeat constructor.
  - discriminate.
  - reflexivity.
  - reflexivity.
  - reflexivity.
  - reflexivity.
  - reflexivity.
  - split; [exact Ha | exact Hw].
Defined.

(** ** The two selections *)

Lemma handle_click_mismatched (pos : point) (s : Game.state) :
  consistent s -> mismatched s -> mismatched (Game.handle_click pos s).
Proof.
  intros Hs Hm.
  destruct (handle_click_outcome pos s Hs)
    as [E | a Ha Hp Hf E | f a Ha Hp Hf Hs2 Hne Hmv Hfl Hcmp].
  - by rewrite E.
  - rewrite E. intros f b Ef Eb. cbn [fst snd] in *.
    assert (Game.second_selection s.2 = None) as Hs2.
    { destruct (Game.second_selection s.2) as [b'|] eqn:Eb'; [|done].
      destruct (cs_second s Hs b' Eb') as (_ & _ & _ & f' & Ef' & _). congruence. }
    simpl in Eb. congruence.
  - destruct Hcmp as [(_ & _ & _ & H1 & _)|[Hv E]].
    + intros f' b' Ef'. congruence.
    + rewrite E. intros f' b'. cbn [fst snd]. simpl. rewrite Hf.
      intros [= <-] [= <-].
      by rewrite !(lookup_alter_proj Card.value).
Qed.

Lemma update_mismatched (s : Game.state) :
  mismatched s -> mismatched (Game.update s).
Proof.
  destruct s as [h g]. unfold mismatched. cbn [fst snd]. intros Hm.
  assert (forall c, Card.value (Game.update_animations (Game.cards g) h !!! c)
                    = Card.value (h !!! c)) as Ev.
  { intros c. apply (update_animations_proj Card.value).
    intros k. unfold Card.update_animation. repeat case_match; done. }
  unfold Game.update.
  set (h1 := Game.update_animations (Game.cards g) h) in *. clearbody h1.
  destruct (0 <? Game.wait_time g).
  - destruct (_ =? 0).
    + unfold Game.flip_back_cards. simpl. destruct (_ && _); simpl.
      * done.
      * intros f b Ef Eb. rewrite !Ev. by apply Hm.
    + simpl. intros f b Ef Eb. rewrite !Ev. by apply Hm.
  - simpl. intros f b Ef Eb. rewrite !Ev. by apply Hm.
Qed.

Lemma run_mismatched (es : list event) (s : Game.state) :
  consistent s -> mismatched s -> mismatched (run es s).
Proof.
  revert s. induction es as [|e es IH]; intros s Hs Hm; [done|].
  change (run (e :: es) s) with (run es (step e s)).
  apply IH; [by apply step_consistent|].
  destruct e; [by apply handle_click_mismatched | by apply update_mismatched].
Qed.

(** X8.  In every game reached by clicks and updates: [wait_time] is
    within [0, FPS] and runs exactly while there is a second selection; a
    second selection comes with a first one; the selections are cards of the
    game that are flipped and not matched; the two selections are different
    cards with different symbols (a matching pair is never left selected);
    and with no first selection no card is face up unmatched. *)
Theorem selection_state_machine (s : Game.state) :
  reachable s ->
  0 <= Game.wait_time s.2 <= FPS /\
  (0 < Game.wait_time s.2 <-> Game.second_selection s.2 <> None) /\
  (Game.second_selection s.2 <> None -> Game.first_selection s.2 <> None) /\
  (forall f, Game.first_selection s.2 = Some f ->
     f ∈ Game.cards s.2 /\ is_revealed (s.1 !!! f) = true) /\
  (forall f b, Game.first_selection s.2 = Some f ->
     Game.second_selection s.2 = Some b ->
     b ∈ Game.cards s.2 /\ is_revealed (s.1 !!! b) = true /\ f <> b /\
     Card.value (s.1 !!! f) <> Card.value (s.1 !!! b)) /\
  (Game.first_selection s.2 = None ->
     forall c, c ∈ tiles s -> is_revealed c = false).
Proof.
  intros (s0 & es & H0 & ->).
  pose proof (fresh_consistent s0 H0) as Hc0.
  assert (mismatched s0) as Hm0.
  { destruct H0 as (values & h & _ & Hi).
    destruct (init_grid_tiles _ _ _ _ Hi) as (_ & -> & _). by intros f b. }
  pose proof (run_consistent es s0 Hc0) as Hc.
  pose proof (run_mismatched es s0 Hc0 Hm0) as Hm.
  set (s := run es s0) in *. clearbody s.
  split; [apply (cs_wait s Hc)|]. split; [|split; [|split; [|split]]].
  - split; [apply (cs_wait s Hc)|].
    intros Hb. destruct (Game.second_selection s.2) as [b|] eqn:Eb; [|done].
    by destruct (cs_second s Hc b Eb) as (_ & _ & ? & _).
  - intros Hb. destruct (Game.second_selection s.2) as [b|] eqn:Eb; [|done].
    destruct (cs_second s Hc b Eb) as (_ & _ & _ & f & -> & _). done.
  - apply (cs_first s Hc).
  - intros f b Ef Eb.
    destruct (cs_second s Hc b Eb) as (Hin & Hr & _ & f' & Ef' & Hne).
    repeat split; try done; [congruence|]. by apply Hm.
  - intros Ef c [a [-> Ha]]%list_elem_of_fmap.
    destruct (is_revealed (s.1 !!! a)) eqn:Er; [|done].
    destruct (cs_revealed s Hc a Ha Er) as [E|E]; [congruence|].
    destruct (cs_second s Hc a E) as (_ & _ & _ & f & Ef' & _). congruence.
Qed.

Lemma selection_state_machine_witness :
  0 < Game.wait_time (run example_mismatch example_game).2 <->
  Game.second_selection (run example_mismatch example_game).2 <> None.
Proof.
  destruct (selection_state_machine (run example_mismatch example_game))
    as (_ & H & _).
  - apply reachable_example.
  - exact H.
Defined.

(** ** Moves and matched cards *)

(** One write changes at most one card of the game. *)
Lemma count_alter (f : Card.t -> Card.t) (a : addr) (h : heap) (l : list addr) :
  NoDup l ->
  (length (filter (fun c => Card.is_matched c = true)
             ((fun c => alter f a h !!! c) <$> l))
   <= length (filter (fun c => Card.is_matched c = true)
                ((fun c => h !!! c) <$> l)) + 1)%nat.
Proof.
  induction l as [|x l IH]; intros Hnd; [simpl; lia|].
  apply list.NoDup_cons in Hnd as [Hx Hnd]. rewrite !fmap_cons, !filter_cons.
  destruct (decide (a = x)) as [->|Hne].
  - assert ((fun c => alter f x h !!! c) <$> l = (fun c => h !!! c) <$> l) as ->.
    { apply list_fmap_ext. intros i c Hc. apply lookup_alter_other.
      intros ->. apply Hx. by eapply list_elem_of_lookup_2. }
    repeat case_decide; simpl; lia.
  - rewrite (lookup_alter_other f h a x Hne). specialize (IH Hnd).
    case_decide; simpl; lia.
Qed.

(** A write that keeps the flag keeps the count. *)
Lemma count_same (h h' : heap) (l : list addr) :
  (forall c, Card.is_matched (h' !!! c) = Card.is_matched (h !!! c)) ->
  length (filter (fun c => Card.is_matched c = true) ((fun c => h' !!! c) <$> l))
  = length (filter (fun c => Card.is_matched c = true) ((fun c => h !!! c) <$> l)).
Proof.
  intros E. induction l as [|x l IH]; [done|].
  rewrite !fmap_cons, !filter_cons, E. case_decide; simpl; lia.
Qed.

Lemma select_card_count (a : addr) (s : Game.state) :
  NoDup (Game.cards s.2) ->
  Z.of_nat (matched_count (Game.select_card a s))
    - 2 * Game.moves (Game.select_card a s).2
  <= Z.of_nat (matched_count s) - 2 * Game.moves s.2.
Proof.
  destruct s as [h g]. unfold matched_count, tiles. cbn [fst snd]. intros Hnd.
  assert (forall c, Card.is_matched (alter Card.flip a h !!! c)
                    = Card.is_matched (h !!! c)) as Ef
    by (intros c; by apply lookup_alter_proj).
  unfold Game.select_card.
  destruct (Game.first_selection g) as [f|].
  - destruct (_ && _); [|cbn [fst snd]; lia].
    destruct (bool_decide _).
    + cbn [fst snd]. unfold Game.reset_selection.
      cbn [Game.cards Game.moves Game.set_second_selection
           Game.set_first_selection].
      rewrite check_victory_cards.
      rewrite (proj1 (proj2 (proj2 (check_victory_selection _ _)))).
      cbn [Game.cards Game.moves Game.set_second_selection Game.set_moves].
      pose proof (count_alter (Card.set_is_matched true) a
        (alter (Card.set_is_matched true) f (alter Card.flip a h))
        (Game.cards g) Hnd) as H1.
      pose proof (count_alter (Card.set_is_matched true) f
        (alter Card.flip a h) (Game.cards g) Hnd) as H2.
      pose proof (count_same h (alter Card.flip a h) (Game.cards g) Ef) as H3.
      lia.
    + cbn [fst snd Game.cards Game.moves Game.set_wait_time Game.set_moves
           Game.set_second_selection].
      rewrite (count_same h (alter Card.flip a h) (Game.cards g) Ef). lia.
  - cbn [fst snd Game.cards Game.moves Game.set_first_selection].
    rewrite (count_same h (alter Card.flip a h) (Game.cards g) Ef). lia.
Qed.

Lemma update_matched (s : Game.state) (c : addr) :
  Card.is_matched ((Game.update s).1 !!! c) = Card.is_matched (s.1 !!! c).
Proof.
  destruct s as [h g]. unfold Game.update. cbn [fst].
  assert (Card.is_matched (Game.update_animations (Game.cards g) h !!! c)
          = Card.is_matched (h !!! c)) as E
    by apply face_eq, update_animations_face.
  destruct (0 <? Game.wait_time g); [|done].
  destruct (_ =? 0); [|done].
  unfold Game.flip_back_cards. destruct (_ && _); [|done].
  cbn [fst]. by rewrite !flip_unless_matched_matched.
Qed.

Lemma step_count (e : event) (s : Game.state) :
  NoDup (Game.cards s.2) ->
  Z.of_nat (matched_count (step e s)) - 2 * Game.moves (step e s).2
  <= Z.of_nat (matched_count s) - 2 * Game.moves s.2.
Proof.
  intros Hnd. destruct e as [pos|]; cbn [step].
  - unfold Game.handle_click. destruct (_ || _); [lia|].
    destruct (click_loop_cases pos (Game.cards s.2) s)
      as [[-> _]|(a & _ & _ & ->)]; [lia|].
    by apply select_card_count.
  - rewrite update_moves. unfold matched_count, tiles.
    destruct (update_board s) as (-> & _).
    rewrite (count_same s.1 (Game.update s).1); [lia|].
    apply update_matched.
Qed.

Lemma count_none (l : list Card.t) :
  (forall c, c ∈ l -> Card.is_matched c = false) ->
  length (filter (fun c => Card.is_matched c = true) l) = 0%nat.
Proof.
  induction l as [|c l IH]; intros H; [done|].
  rewrite filter_cons, (H c) by (by left). rewrite decide_False by done.
  apply IH. intros c' Hc'. apply H. by right.
Qed.

Lemma count_all (l : list Card.t) :
  (forall c, c ∈ l -> Card.is_matched c = true) ->
  length (filter (fun c => Card.is_matched c = true) l) = length l.
Proof.
  induction l as [|c l IH]; intros H; [done|].
  rewrite filter_cons, decide_True by (apply H; by left).
  simpl. f_equal. apply IH. intros c' Hc'. apply H. by right.
Qed.

Lemma reachable_tiles_length (s : Game.state) :
  reachable s -> length (tiles s) = 16%nat.
Proof.
  intros (s0 & es & (values & h0 & Hp & Hi) & ->).
  rewrite <- (length_fmap layout), (same_board_tiles _ _ (run_board es s0)).
  destruct (init_grid_tiles _ _ _ _ Hi) as (Hle & _ & ->).
  rewrite length_fmap. by apply length_dealt.
Qed.

(** X9.  In a game reached by clicks and updates at most two cards are
    matched per move, so a won game has at least eight moves. *)
Theorem matched_cards_cost_moves (s : Game.state) :
  reachable s ->
  Z.of_nat (matched_count s) <= 2 * Game.moves s.2 /\
  (Game.victory s.2 = true -> 8 <= Game.moves s.2).
Proof.
  intros Hs.
  assert (Z.of_nat (matched_count s) <= 2 * Game.moves s.2) as Hc.
  { destruct Hs as (s0 & es & H0 & ->).
    pose proof (fresh_consistent s0 H0) as Hcs.
    assert (Z.of_nat (matched_count s0) - 2 * Game.moves s0.2 <= 0) as Hi.
    { destruct H0 as (values & h0 & _ & Hi).
      destruct (init_grid_tiles _ _ _ _ Hi) as (_ & -> & Ht).
      unfold matched_count. rewrite Ht, count_none; [simpl; lia|].
      intros c Hc. unfold dealt in Hc.
      apply elem_of_zip_with in Hc as (cell & v & -> & _). done. }
    clear H0. revert s0 Hi Hcs. induction es as [|e es IH]; intros s0 Hi Hcs.
    - simpl. lia.
    - change (run (e :: es) s0) with (run es (step e s0)).
      apply IH; [|by apply step_consistent].
      pose proof (step_count e s0 (cs_nodup s0 Hcs)). lia. }
  split; [done|]. intros Hv.
  pose proof (reachable_consistent s Hs) as Hcs.
  rewrite (cs_victory s Hcs) in Hv.
  assert (matched_count s = 16%nat) as E; [|lia].
  unfold matched_count. rewrite count_all.
  - by apply reachable_tiles_length.
  - intros c (a & -> & Ha)%list_elem_of_fmap. by apply Hv.
Qed.

Lemma matched_cards_cost_moves_witness :
  8 <= Game.moves (run example_win example_game).2.
Proof.
  apply (matched_cards_cost_moves (run example_win example_game)).
  - apply reachable_example.
  - vm_compute. reflexivity.
Defined.

(** ** Which card a tap hits *)

Lemma grid_index_spec (start p : Z) (i : nat) :
  (i < GRID_SIZE)%nat ->
  (start + Z.of_nat i * (CARD_SIZE + CARD_SPACING) <= p
   < start + Z.of_nat i * (CARD_SIZE + CARD_SPACING) + CARD_SIZE) <->
  grid_index start p = Some i.
Proof.
  unfold grid_index, GRID_SIZE, CARD_SIZE, CARD_SPACING. intros Hi.
  change (100 + 10) with 110.
  destruct (0 <=? p - start) eqn:E0; simpl.
  - apply Z.leb_le in E0.
    destruct ((p - start) `div` 110 <? Z.of_nat 4) eqn:E1; simpl.
    + apply Z.ltb_lt in E1.
      destruct ((p - start) `mod` 110 <? 100) eqn:E2.
      * apply Z.ltb_lt in E2. split.
        -- intros H. f_equal. Z.div_mod_to_equations. lia.
        -- intros [= <-]. Z.div_mod_to_equations. lia.
      * apply Z.ltb_ge in E2. split; [|done].
        intros H. Z.div_mod_to_equations. lia.
    + apply Z.ltb_ge in E1. split; [|done].
      intros H. Z.div_mod_to_equations. lia.
  - apply Z.leb_gt in E0. split; [|done]. intros H. lia.
Qed.

Lemma grid_index_bound (start p : Z) (i : nat) :
  grid_index start p = Some i -> (i < GRID_SIZE)%nat.
Proof.
  unfold grid_index, GRID_SIZE, CARD_SIZE, CARD_SPACING.
  change (100 + 10) with 110.
  destruct (0 <=? p - start) eqn:E0; [|done]. apply Z.leb_le in E0.
  destruct ((p - start) `div` 110 <? Z.of_nat 4) eqn:E1; [|done].
  apply Z.ltb_lt in E1. simpl. destruct (_ <? 100); [|done].
  intros [= <-]. Z.div_mod_to_equations. lia.
Qed.

(** A position lies in the card of a cell iff it falls in that cell. *)
Lemma cell_of_spec (cell : nat * nat) (v : string) (pos : point) :
  (cell.1 < GRID_SIZE)%nat -> (cell.2 < GRID_SIZE)%nat ->
  Card.collidepoint (card_at GRID_SIZE cell v) pos = true <->
  cell_of pos = Some cell.
Proof.
  destruct cell as [r c]. cbn [fst snd]. intros Hr Hc.
  rewrite collidepoint_spec. unfold card_at, cell_of. cbn [fst snd Card.x Card.y Card.init].
  pose proof (grid_index_spec (Game.start_y GRID_SIZE) pos.2 r Hr) as Hy.
  pose proof (grid_index_spec (Game.start_x GRID_SIZE) pos.1 c Hc) as Hx.
  pose proof (grid_index_bound (Game.start_y GRID_SIZE) pos.2) as By.
  pose proof (grid_index_bound (Game.start_x GRID_SIZE) pos.1) as Bx.
  split.
  - intros [Hpx Hpy]. apply Hx in Hpx. apply Hy in Hpy. by rewrite Hpx, Hpy.
  - destruct (grid_index (Game.start_y GRID_SIZE) pos.2) as [r'|]; [|done].
    destruct (grid_index (Game.start_x GRID_SIZE) pos.1) as [c'|]; [|done].
    intros [= -> ->]. split; [by apply Hx | by apply Hy].
Qed.

(** Cell [(row, col)] is number [row * GRID_SIZE + col] of the loops. *)
Lemma cells_lookup (row col : nat) :
  (row < GRID_SIZE)%nat -> (col < GRID_SIZE)%nat ->
  cells GRID_SIZE !! (row * GRID_SIZE + col)%nat = Some (row, col).
Proof.
  unfold GRID_SIZE. intros Hr Hc.
  do 4 (destruct row as [|row]; [do 4 (destruct col as [|col]; [reflexivity|]); lia|]).
  lia.
Qed.

(** The cards of a reachable state, by number: card [i] is the one dealt
    on cell [i], up to its flags and animation. *)
Lemma reachable_card (s : Game.state) (i : nat) (cell : nat * nat) :
  reachable s -> cells GRID_SIZE !! i = Some cell ->
  exists a v, Game.cards s.2 !! i = Some a /\
    layout (s.1 !!! a) = layout (card_at GRID_SIZE cell v).
Proof.
  intros (s0 & es & (values & h0 & Hp & Hi) & ->) Hcell.
  destruct (run_board es s0) as (Hc & _ & Hl).
  destruct (init_grid_tiles _ _ _ _ Hi) as (Hle & E0 & Hd).
  assert (is_Some (tiles s0 !! i)) as [c Hc0].
  { apply lookup_lt_is_Some_2. rewrite Hd, length_dealt by done.
    rewrite <- length_cells. by eapply lookup_lt_Some. }
  pose proof Hc0 as Hc1. rewrite Hd in Hc1. unfold dealt in Hc1.
  apply lookup_zip_with_Some in Hc1 as (cell' & v & -> & Hcell' & _).
  assert (cell' = cell) as -> by congruence.
  unfold tiles in Hc0. rewrite list_lookup_fmap in Hc0.
  destruct (Game.cards s0.2 !! i) as [a|] eqn:Ea; [|done].
  simpl in Hc0. injection Hc0 as Hc0.
  exists a, v. rewrite Hc. split; [done|]. by rewrite Hl, Hc0.
Qed.

Lemma reachable_card_cell (s : Game.state) (a : addr) :
  reachable s -> a ∈ Game.cards s.2 ->
  exists cell v, cell ∈ cells GRID_SIZE /\
    layout (s.1 !!! a) = layout (card_at GRID_SIZE cell v).
Proof.
  intros Hs [i Hi]%list_elem_of_lookup.
  assert (is_Some (cells GRID_SIZE !! i)) as [cell Hcell].
  { apply lookup_lt_is_Some_2. rewrite length_cells.
    destruct Hs as (s0 & es & (values & h0 & Hp & Hin) & ->).
    destruct (run_board es s0) as (Hc & _).
    destruct (init_grid_tiles _ _ _ _ Hin) as (_ & E0 & _).
    rewrite Hc, E0 in Hi. cbn [snd Game.cards] in Hi.
    apply lookup_lt_Some in Hi. by rewrite length_seq in Hi. }
  destruct (reachable_card s i cell Hs Hcell) as (a' & v & Ha' & Hl).
  assert (a' = a) as -> by congruence.
  exists cell, v. split; [|done]. apply list_elem_of_lookup. by exists i.
Qed.

(** X10.  A click at a position that is in no cell of the grid (in a gap
    between the cards or outside the grid) changes nothing in a game reached
    by clicks and updates.  The position is one pygame takes as it is: both
    coordinates are C integers, as those of every mouse event are. *)
Theorem tap_off_the_cards_ignored (s : Game.state) (pos : point) :
  reachable s -> c_int pos.1 = true -> c_int pos.2 = true ->
  cell_of pos = None -> Game.handle_click pos s = s.
Proof.
  intros Hs _ _ Hpos. unfold Game.handle_click. destruct (_ || _); [done|].
  apply click_loop_ignored. intros a Ha Hc. exfalso.
  destruct (reachable_card_cell s a Hs Ha) as (cell & v & Hcell & Hl).
  rewrite (collidepoint_layout _ _ pos Hl) in Hc.
  apply elem_of_cells in Hcell as [Hr Hcl].
  apply cell_of_spec in Hc; [congruence | done | done].
Qed.

Lemma tap_off_the_cards_ignored_witness :
  Game.handle_click (205, 125) example_game = example_game.
Proof.
  apply tap_off_the_cards_ignored;
    [apply (reachable_example []) | reflexivity | reflexivity | reflexivity].
Defined.

(** X11.  A click at a position in the cell of row [row] and column
    [col] is a click on card number [row * GRID_SIZE + col] of [self.cards],
    and on no other: that card lies at the corner of the cell, and it is the
    one card of the game whose rectangle holds the position. *)
Theorem tap_on_cell_hits_its_card (s : Game.state) (pos : point) (row col : nat) :
  reachable s -> cell_of pos = Some (row, col) ->
  exists a, Game.cards s.2 !! (row * GRID_SIZE + col)%nat = Some a /\
    tapped pos s a /\
    Card.x (s.1 !!! a) =
      Game.start_x GRID_SIZE + Z.of_nat col * (CARD_SIZE + CARD_SPACING) /\
    Card.y (s.1 !!! a) =
      Game.start_y GRID_SIZE + Z.of_nat row * (CARD_SIZE + CARD_SPACING).
Proof.
  intros Hs Hpos.
  assert ((row < GRID_SIZE)%nat /\ (col < GRID_SIZE)%nat) as [Hr Hc].
  { unfold cell_of in Hpos.
    destruct (grid_index (Game.start_y GRID_SIZE) pos.2) as [r'|] eqn:Er; [|done].
    destruct (grid_index (Game.start_x GRID_SIZE) pos.1) as [c'|] eqn:Ec; [|done].
    injection Hpos as -> ->. split; by eapply grid_index_bound. }
  destruct (reachable_card s _ _ Hs (cells_lookup row col Hr Hc))
    as (a & v & Ha & Hl).
  exists a. split; [done|].
  assert (a ∈ Game.cards s.2) as Hin by (apply list_elem_of_lookup; eauto).
  split.
  - apply reachable_tapped; [done | done |].
    rewrite (collidepoint_layout _ _ pos Hl). by apply cell_of_spec.
  - unfold layout in Hl. injection Hl as -> -> _. done.
Qed.

Lemma tap_on_cell_hits_its_card_witness :
  exists a, Game.cards example_game.2 !! (1 * GRID_SIZE + 2)%nat = Some a /\
    tapped (330, 140) example_game a.
Proof.
  destruct (tap_on_cell_hits_its_card example_game (330, 140) 1 2)
    as (a & Ha & Ht & _).
  - apply (reachable_example []).
  - reflexivity.
  - exists a. split; [exact Ha | exact Ht].
Defined.

(** ** A load that fails half way *)

Lemma loaded_card_record (d : card_data) (c : Card.t) :
  loaded_card d = Some c -> Game.card_record c = d.
Proof.
  unfold loaded_card. destruct d as [[?|] [?|] [?|] [?|] [?|]]; try done.
  by intros [= <-].
Qed.

Lemma loaded_cards_record (l : list card_data) (cs : list Card.t) :
  loaded_cards l = Some cs -> Game.card_record <$> cs = l.
Proof.
  revert cs. induction l as [|d l IH]; intros cs; simpl.
  - by intros [= <-].
  - destruct (loaded_card d) as [c|] eqn:Ed; [|done].
    destruct (loaded_cards l) as [cs'|]; [|done]. intros [= <-].
    rewrite fmap_cons, (loaded_card_record _ _ Ed). f_equal. by apply IH.
Qed.

Lemma loaded_card_settled (d : card_data) (c : Card.t) :
  loaded_card d = Some c -> Card.flip_progress c = animation_target c.
Proof.
  unfold loaded_card. destruct d as [[?|] [?|] [?|] [?|] [?|]]; try done.
  by intros [= <-].
Qed.

Lemma loaded_cards_settled (l : list card_data) (cs : list Card.t) (c : Card.t) :
  loaded_cards l = Some cs -> c ∈ cs -> Card.flip_progress c = animation_target c.
Proof.
  revert cs. induction l as [|d l IH]; intros cs; simpl.
  - intros [= <-]. by intros ?%elem_of_nil.
  - destruct (loaded_card d) as [c'|] eqn:Ed; [|done].
    destruct (loaded_cards l) as [cs'|]; [|done]. intros [= <-].
    intros [->|Hin]%elem_of_cons; [by eapply loaded_card_settled | by eapply IH].
Qed.

Lemma tiles_of_loaded_cards (h cs new : heap) :
  (fun a => (h ++ cs ++ new) !!! a) <$> seq (length h) (length cs) = cs.
Proof.
  transitivity ((fun a => (h ++ cs) !!! a) <$> seq (length h) (length cs));
    [|apply tiles_of_new_cards].
  apply list_fmap_ext. intros i a Ha.
  apply lookup_seq in Ha as [-> Hi].
  rewrite app_assoc. apply lookup_total_app_l. rewrite length_app. lia.
Qed.

(** X12.  When the file has the keys [moves], [victory] and [cards] but
    some card record lacks a key, and the card coordinates in the file are
    C integers (so that no [Card(x, y, value)] raises), [load_game]
    returns [False] and the game is not what it was: [moves] and [victory]
    are the file's, the cards are those of the records before the first
    incomplete one, and the selections and [wait_time] are the old ones. *)
Theorem failed_load_is_partial (d : save_data) (m : Z) (v : bool)
    (l : list card_data) (s : Game.state) :
  sd_moves d = Some m -> sd_victory d = Some v -> sd_cards d = Some l ->
  forallb card_in_range l = true ->
  forallb card_complete l = false ->
  let r := Game.load_game (Some (Parsed d)) s in
  r.1 = false /\
  Game.moves r.2.2 = m /\ Game.victory r.2.2 = v /\
  Game.first_selection r.2.2 = Game.first_selection s.2 /\
  Game.second_selection r.2.2 = Game.second_selection s.2 /\
  Game.wait_time r.2.2 = Game.wait_time s.2 /\
  exists k bad, l !! k = Some bad /\ card_complete bad = false /\
    loaded_cards (take k l) = Some (tiles r.2).
Proof.
  intros Hm Hv Hl _ Hbad. destruct s as [h g]. cbn zeta.
  unfold Game.load_game. rewrite Hm, Hv, Hl.
  destruct (load_cards_partial l h
              (Game.set_cards [] (Game.set_victory v (Game.set_moves m g))) Hbad)
    as (k & bad & cs & new & Hk & Hb & Hcs & ->).
  cbn [fst snd Game.moves Game.victory Game.first_selection
       Game.second_selection Game.wait_time Game.set_cards Game.set_victory
       Game.set_moves Game.cards].
  repeat split; try done.
  exists k, bad. split; [done|]. split; [done|].
  unfold tiles. cbn [fst snd Game.cards app].
  by rewrite tiles_of_loaded_cards.
Qed.

Lemma failed_load_is_partial_witness :
  let r := Game.load_game (Some (Parsed example_broken))
             (run example_mismatch example_game) in
  r.1 = false /\ Game.moves r.2.2 = 7 /\ Game.victory r.2.2 = true /\
  length (Game.cards r.2.2) = 1%nat /\ Game.wait_time r.2.2 = FPS.
Proof.
  destruct (failed_load_is_partial example_broken 7 true
              (default [] (sd_cards example_broken))
              (run example_mismatch example_game))
    as (H1 & H2 & H3 & _ & _ & H6 & _); try reflexivity.
  cbn zeta. split; [exact H1|]. split; [exact H2|]. split; [exact H3|].
  split; [vm_compute; reflexivity | vm_compute; reflexivity].
Defined.

(** ** Loading and saving again *)

(** X13.  A game that [load_game] has just loaded from a record is saved
    as that same record: positions, symbols, flags, [moves] and [victory]
    all come back. *)
Theorem save_after_load (d : save_data) (s0 s : Game.state) :
  Game.load_game (Some (Parsed d)) s0 = (true, s) ->
  Game.save_record s = d.
Proof.
  intros Hload. destruct s0 as [h0 g0].
  pose proof (load_game_spec (Some (Parsed d)) h0 g0) as H. cbn match in H.
  destruct d as [[m|] [v|] [l|]]; cbn [sd_moves sd_victory sd_cards] in H;
    try (by rewrite Hload in H).
  destruct (loaded_cards l) as [cs|] eqn:Ecs; [|by rewrite Hload in H].
  rewrite Hload in H. injection H as ->.
  unfold Game.save_record. cbn [fst snd Game.moves Game.victory Game.cards].
  do 2 f_equal.
  transitivity (Game.card_record <$>
                ((fun a => (h0 ++ cs) !!! a) <$> seq (length h0) (length cs)));
    [by rewrite <- list_fmap_compose|].
  rewrite tiles_of_new_cards. by apply loaded_cards_record.
Qed.

Lemma save_after_load_witness :
  Game.save_record example_loaded = example_saved.
Proof.
  apply (save_after_load example_saved example_game example_loaded).
  vm_compute. reflexivity.
Defined.

(** ** A loaded game does not move *)

Lemma alter_fixed (f : Card.t -> Card.t) (a : addr) (h : heap) :
  (forall c, h !! a = Some c -> f c = c) -> alter f a h = h.
Proof.
  intros Hf. apply list_eq. intros i. rewrite list_lookup_alter.
  case_decide as Hi; [subst i|done].
  destruct (h !! a) as [c|] eqn:E; [|done].
  simpl. f_equal. by apply Hf.
Qed.

Lemma update_animation_settled (c : Card.t) :
  Card.flip_progress c = animation_target c -> Card.update_animation c = c.
Proof.
  unfold animation_target, Card.update_animation, CARD_SIZE. destruct c as [x y v fl m p].
  simpl. intros ->. by destruct (fl || m).
Qed.

Lemma update_animations_settled (l : list addr) (h : heap) :
  (forall a, a ∈ l -> Card.flip_progress (h !!! a) = animation_target (h !!! a)) ->
  Game.update_animations l h = h.
Proof.
  intros Hh. unfold Game.update_animations.
  induction l as [|a l IH]; [done|]. cbn [foldl].
  rewrite alter_fixed.
  - apply IH. intros b Hb. apply Hh. by right.
  - intros c Hc. apply update_animation_settled.
    rewrite <- (list_lookup_total_correct _ _ _ Hc). apply Hh. by left.
Qed.

(** X14.  In a game that [load_game] has just loaded every card is at the
    end of its animation, and updates alone change nothing in it: the
    loaded cards appear turned at once, and nothing waits to be flipped
    back. *)
Theorem loaded_game_at_rest (fs : storage) (s0 s : Game.state) (n : nat) :
  Game.load_game fs s0 = (true, s) ->
  (forall a, a ∈ Game.cards s.2 ->
     Card.flip_progress (s.1 !!! a) = animation_target (s.1 !!! a)) /\
  run (replicate n Tick) s = s.
Proof.
  intros Hload. destruct s0 as [h0 g0].
  pose proof (load_game_spec fs h0 g0) as H.
  destruct fs as [[|d]|]; try (by rewrite Hload in H).
  destruct (sd_moves d) as [m|]; [|by rewrite Hload in H].
  destruct (sd_victory d) as [v|]; [|by rewrite Hload in H].
  destruct (sd_cards d) as [l|]; [|by rewrite Hload in H].
  destruct (loaded_cards l) as [cs|] eqn:Ecs; [|by rewrite Hload in H].
  rewrite Hload in H. injection H as ->. cbn [fst snd Game.cards].
  assert (forall a, a ∈ seq (length h0) (length cs) ->
            Card.flip_progress ((h0 ++ cs) !!! a)
            = animation_target ((h0 ++ cs) !!! a)) as Hrest.
  { intros a [i Hi]%list_elem_of_lookup. apply lookup_seq in Hi as [-> Hi].
    destruct (lookup_lt_is_Some_2 cs i Hi) as [c Hc].
    rewrite lookup_total_app_r by lia.
    replace (length h0 + i - length h0)%nat with i by lia.
    rewrite (list_lookup_total_correct _ _ _ Hc).
    eapply loaded_cards_settled; [exact Ecs|].
    by eapply list_elem_of_lookup_2. }
  split; [exact Hrest|].
  set (s := (h0 ++ cs, Game.mk (seq (length h0) (length cs)) None None m v 0)).
  assert (Game.update s = s) as Hupd.
  { unfold s, Game.update. cbn [Game.cards Game.wait_time].
    by rewrite update_animations_settled by exact Hrest. }
  clearbody s. induction n as [|n IH]; [done|].
  change (run (replicate (S n) Tick) s)
    with (run (replicate n Tick) (Game.update s)).
  by rewrite Hupd.
Qed.

Lemma loaded_game_at_rest_witness :
  run (replicate 5 Tick) example_loaded = example_loaded.
Proof.
  apply (loaded_game_at_rest (Some (Parsed example_saved)) example_game
           example_loaded 5).
  vm_compute. reflexivity.
Defined.

(** ** The main loop *)

Lemma frames_app (shuffle : nat -> list string) (fs fs' : list (list input))
    (p : process) :
  frames shuffle (fs ++ fs') p =
  match frames shuffle fs p with
  | Running q => frames shuffle fs' q
  | st => st
  end.
Proof.
  revert p. induction fs as [|es fs IH]; intros p; [done|].
  cbn [app frames]. destruct (frame shuffle es p); [apply IH | done | done].
Qed.

(** What every event and every update keeps, the loop keeps. *)
Lemma frames_sat (shuffle : nat -> list string) (allowed : input -> Prop)
    (I J : process -> Prop) (C : Prop) :
  (forall e p, allowed e -> I p ->
     status_sat I J C (handle_event shuffle e p)) ->
  (forall p, I p ->
     I (mk_process (disk p) (Game.update (game p)) (shuffles p))) ->
  forall fs p, Forall allowed (concat fs) -> I p ->
    status_sat I J C (frames shuffle fs p).
Proof.
  intros Hev Hup.
  assert (forall es p, Forall allowed es -> I p ->
            status_sat I J C (handle_events shuffle es p)) as Hes.
  { induction es as [|e es IH]; intros p Hall Hp; [done|].
    apply list.Forall_cons in Hall as [He Hall]. cbn [handle_events].
    pose proof (Hev e p He Hp) as H.
    destruct (handle_event shuffle e p); [by apply IH | done | done]. }
  induction fs as [|es fs IH]; intros p Hall Hp; [done|].
  cbn [concat] in Hall. apply list.Forall_app in Hall as [Hes' Hall].
  cbn [frames]. unfold frame.
  pose proof (Hes es p Hes' Hp) as H.
  destruct (handle_events shuffle es p) as [q| |]; [|done|done].
  apply IH; [done|]. by apply Hup.
Qed.

Lemma main_sat (shuffle : nat -> list string) (allowed : input -> Prop)
    (I J : process -> Prop) (C : Prop) (d : storage) :
  (forall e p, allowed e -> I p ->
     status_sat I J C (handle_event shuffle e p)) ->
  (forall p, I p ->
     I (mk_process (disk p) (Game.update (game p)) (shuffles p))) ->
  status_sat I J C (start shuffle d) ->
  forall fs, Forall allowed (concat fs) ->
    status_sat I J C (main shuffle d fs).
Proof.
  intros Hev Hup Hst fs Hall. unfold main.
  destruct (start shuffle d) as [p| |]; [|done|done].
  by apply (frames_sat shuffle allowed).
Qed.

(** ** Boards *)

Lemma init_fresh (values : list string) (h : heap) :
  values ≡ₚ CARD_VALUES ++ CARD_VALUES ->
  exists s, Game.init values h = Some s /\ fresh s.
Proof.
  intros Hp.
  destruct (proj2 (init_grid_succeeds GRID_SIZE values h)) as [s Hs].
  { by rewrite Hp. }
  exists s. split; [done|]. by exists values, h.
Qed.

Lemma fresh_full_board (s : Game.state) : fresh s -> full_board s.
Proof.
  intros (values & h & Hp & Hi). exists values. split; [done|].
  destruct (init_grid_tiles _ _ _ _ Hi) as (_ & _ & ->). done.
Qed.

Lemma full_board_step (s s' : Game.state) :
  same_board s s' -> full_board s -> full_board s'.
Proof.
  intros Hb (values & Hp & Hl). exists values. split; [done|].
  by rewrite (same_board_tiles _ _ Hb).
Qed.

Lemma full_board_values (s : Game.state) (c : Card.t) :
  full_board s -> c ∈ tiles s -> Card.value c ∈ CARD_VALUES.
Proof.
  intros (values & Hp & Hl) Hc.
  assert (length values = 16%nat) as Hlen by (by rewrite Hp).
  apply (list_elem_of_fmap_2 Card.value) in Hc.
  rewrite (layout_value _ _ Hl), dealt_values in Hc
    by (rewrite Hlen; unfold GRID_SIZE; lia).
  rewrite elem_of_reverse, Hp in Hc.
  by apply elem_of_app in Hc as [Hc|Hc].
Qed.

(** [victory_sound] in terms of the cards alone. *)
Lemma victory_sound_face (s s' : Game.state) :
  face <$> tiles s' = face <$> tiles s ->
  Game.victory s'.2 = Game.victory s.2 ->
  victory_sound s -> victory_sound s'.
Proof.
  assert (forall t : Game.state,
            (forall a, a ∈ Game.cards t.2 -> Card.is_matched (t.1 !!! a) = true)
            <-> Forall (fun f : bool * bool => f.2 = true) (face <$> tiles t)) as E.
  { intros t. unfold tiles. rewrite <- list_fmap_compose, Forall_fmap.
    by rewrite list.Forall_forall. }
  unfold victory_sound. intros Hf Hv. by rewrite !E, Hf, Hv.
Qed.

(** ** Loading what was saved *)

Lemma load_saved (s s0 : Game.state) :
  exists s', Game.load_game (Some (Parsed (Game.save_record s))) s0 = (true, s') /\
    tiles s' = settled <$> tiles s /\
    Game.moves s'.2 = Game.moves s.2 /\ Game.victory s'.2 = Game.victory s.2 /\
    Game.first_selection s'.2 = None /\ Game.second_selection s'.2 = None /\
    Game.wait_time s'.2 = 0.
Proof.
  destruct s0 as [h0 g0].
  pose proof (load_game_spec (Some (Parsed (Game.save_record s))) h0 g0) as H.
  unfold Game.save_record in H. cbn [sd_moves sd_victory sd_cards] in H.
  assert ((fun a => Game.card_record (s.1 !!! a)) <$> Game.cards s.2
          = Game.card_record <$> tiles s) as E
    by (unfold tiles; by rewrite <- list_fmap_compose).
  rewrite E, loaded_cards_records in H.
  unfold Game.save_record. rewrite E.
  eexists. split; [exact H|]. split; [|done].
  unfold tiles at 1. cbn [fst snd Game.cards]. apply tiles_of_new_cards.
Qed.

Lemma layout_settled (l : list Card.t) : layout <$> (settled <$> l) = layout <$> l.
Proof. rewrite <- list_fmap_compose. by apply list_fmap_ext. Qed.

Lemma face_settled (l : list Card.t) : face <$> (settled <$> l) = face <$> l.
Proof. rewrite <- list_fmap_compose. by apply list_fmap_ext. Qed.

Lemma fresh_sound (s : Game.state) :
  fresh s -> full_board s /\ victory_sound s.
Proof.
  intros Hs. split; [by apply fresh_full_board|].
  apply (cs_victory s), fresh_consistent, Hs.
Qed.

Lemma step_sound (e : event) (s : Game.state) :
  full_board s /\ victory_sound s ->
  full_board (step e s) /\ victory_sound (step e s).
Proof.
  intros [Hb Hv]. split.
  - eapply full_board_step; [apply step_board | done].
  - by apply step_victory_sound.
Qed.

Lemma load_sound (p : process) :
  session_inv p ->
  full_board (Game.load_game (disk p) (game p)).2 /\
  victory_sound (Game.load_game (disk p) (game p)).2.
Proof.
  intros [Hg [Hd|(s & [Hb Hv] & Hd)]]; rewrite Hd; [done|].
  destruct (load_saved s (game p)) as (s' & -> & Ht & _ & Hvic & _).
  cbn [snd]. split.
  - destruct Hb as (values & Hp & Hl). exists values. split; [done|].
    by rewrite Ht, layout_settled.
  - apply (victory_sound_face s); [by rewrite Ht, face_settled | done | done].
Qed.

Lemma handle_event_inv (shuffle : nat -> list string) (e : input) (p : process) :
  (forall n, shuffle n ≡ₚ CARD_VALUES ++ CARD_VALUES) ->
  session_inv p ->
  status_sat session_inv session_inv False (handle_event shuffle e p).
Proof.
  intros Hsh Hp. pose proof Hp as [Hg Hd].
  destruct e as [|button pos|[| | |]|]; cbn [handle_event].
  - cbn [status_sat]. split; [done|]. cbn [disk].
    destruct (negb _); [|done]. right. by exists (game p).
  - destruct (button =? 1); [|done]. split; [|done].
    apply (step_sound (Click pos)), Hg.
  - unfold new_game.
    destruct (init_fresh (shuffle (shuffles p)) (game p).1 (Hsh _))
      as (s & -> & Hs).
    split; [by apply fresh_sound | done].
  - split; [done|]. right. by exists (game p).
  - split; [by apply load_sound | done].
  - done.
  - done.
Qed.

Lemma start_inv (shuffle : nat -> list string) :
  (forall n, shuffle n ≡ₚ CARD_VALUES ++ CARD_VALUES) ->
  status_sat session_inv session_inv False (start shuffle None).
Proof.
  intros Hsh. unfold start.
  destruct (init_fresh (shuffle 0%nat) [] (Hsh _)) as (s & -> & Hs).
  split; [by apply fresh_sound | by left].
Qed.

(** X15.  Started without a save file, and with every shuffle a
    permutation of the sixteen values, [main] never leaves its loop by an
    exception of [Game()], whatever the events (clicks, restarts, saves,
    loads, quit): the game it holds always has the sixteen cards of a dealt
    board with symbols from [CARD_VALUES], [victory] is set iff all cards
    are matched, and the save file is absent or a record with all keys. *)
Theorem main_keeps_full_board (shuffle : nat -> list string)
    (fs : list (list input)) :
  (forall n, shuffle n ≡ₚ CARD_VALUES ++ CARD_VALUES) ->
  exists p,
    (main shuffle None fs = Running p \/ main shuffle None fs = Exited p) /\
    full_board (game p) /\
    length (tiles (game p)) = 16%nat /\
    (forall c, c ∈ tiles (game p) -> Card.value c ∈ CARD_VALUES) /\
    victory_sound (game p) /\
    (disk p = None \/
     exists d, disk p = Some (Parsed d) /\ record_complete d = true).
Proof.
  intros Hsh.
  pose proof (main_sat shuffle (fun _ => True) session_inv session_inv False
                None (fun e p _ => handle_event_inv shuffle e p Hsh)) as H.
  specialize (H (fun p Hp =>
    conj (step_sound Tick (game p) (proj1 Hp)) (proj2 Hp))).
  specialize (H (start_inv shuffle Hsh) fs).
  assert (Forall (fun _ : input => True) (concat fs)) as Hall
    by (by apply list.Forall_forall).
  specialize (H Hall).
  assert (exists p, (main shuffle None fs = Running p \/
                     main shuffle None fs = Exited p) /\ session_inv p)
    as (p & Hst & [Hb Hv] & Hd).
  { destruct (main shuffle None fs) as [p|p|]; [| |done]; exists p; eauto. }
  exists p. split; [done|]. split; [done|]. split.
  { destruct Hb as (values & Hp & Hl).
    rewrite <- (length_fmap layout), Hl, length_fmap.
    apply length_dealt. by rewrite Hp. }
  split; [intros c; by apply full_board_values|]. split; [done|].
  destruct Hd as [Hd|(s & _ & Hd)]; [by left|]. right.
  eexists. split; [exact Hd|].
  rewrite <- (load_game_accepts _ (game p)).
  by destruct (load_saved s (game p)) as (s' & -> & _).
Qed.

Lemma main_keeps_full_board_witness :
  exists p, main example_shuffle None example_session = Exited p /\
            length (tiles (game p)) = 16%nat.
Proof.
  destruct (main_keeps_full_board example_shuffle example_session)
    as (p & Hst & _ & Hl & _); [done|].
  exists p. split; [|exact Hl].
  destruct Hst as [Hst|Hst]; [|exact Hst].
  vm_compute in Hst. discriminate Hst.
Defined.

(** ** Sessions without loading *)

(** X16.  Started without a save file, with every shuffle a permutation
    of the sixteen values and with no press of the L key, the game [main]
    holds is always one reached from a freshly dealt game by
    left clicks and updates; restarts, saves, other mouse buttons and other
    keys do not lead outside. *)
Theorem main_plays_reachable_games (shuffle : nat -> list string)
    (fs : list (list input)) :
  (forall n, shuffle n ≡ₚ CARD_VALUES ++ CARD_VALUES) ->
  KEYDOWN K_l ∉ concat fs ->
  exists p,
    (main shuffle None fs = Running p \/ main shuffle None fs = Exited p) /\
    reachable (game p).
Proof.
  intros Hsh Hl.
  set (I := fun p : process => reachable (game p)).
  assert (status_sat I I False (main shuffle None fs)) as H.
  { apply (main_sat shuffle (fun e => e <> KEYDOWN K_l)).
    - intros e p He Hp. destruct e as [|button pos|[| | |]|]; cbn [handle_event];
        try done.
      + destruct (button =? 1); [|done]. apply (reachable_step (Click pos)), Hp.
      + unfold new_game.
        destruct (init_fresh (shuffle (shuffles p)) (game p).1 (Hsh _))
          as (s & -> & Hs).
        exists s, []. done.
    - intros p Hp. apply (reachable_step Tick), Hp.
    - unfold start.
      destruct (init_fresh (shuffle 0%nat) [] (Hsh _)) as (s & -> & Hs).
      exists s, []. done.
    - apply list.Forall_forall. by intros e He ->. }
  destruct (main shuffle None fs) as [p|p|]; [| |done]; exists p; eauto.
Qed.

Lemma main_plays_reachable_games_witness :
  exists p, main example_shuffle None example_session = Exited p /\
            reachable (game p).
Proof.
  destruct (main_plays_reachable_games example_shuffle example_session)
    as (p & Hst & Hr).
  - done.
  - intros H. vm_compute in H.
    repeat (apply elem_of_cons in H as [H|H]; [discriminate H|]).
    by apply elem_of_nil in H.
  - exists p. split; [|exact Hr].
    destruct Hst as [Hst|Hst]; [|exact Hst].
    vm_compute in Hst. discriminate Hst.
Defined.

(** ** Quit and relaunch *)

(** X17.  Closing the window while the game is not won ends [main] with
    the game saved (what follows the [QUIT] event is not handled), and the
    next launch (its shuffle a permutation of the sixteen values) resumes
    it: the same positions, symbols and flags in the
    same order and the same [moves], with no selection and no wait. *)
Theorem quit_then_relaunch_resumes (shuffle shuffle' : nat -> list string)
    (d : storage) (fs later : list (list input)) (rest : list input)
    (p : process) :
  main shuffle d fs = Running p ->
  Game.victory (game p).2 = false ->
  shuffle' 0%nat ≡ₚ CARD_VALUES ++ CARD_VALUES ->
  exists q p',
    main shuffle d (fs ++ (QUIT :: rest) :: later) = Exited q /\
    game q = game p /\
    main shuffle' (disk q) [] = Running p' /\
    layout <$> tiles (game p') = layout <$> tiles (game p) /\
    face <$> tiles (game p') = face <$> tiles (game p) /\
    Game.moves (game p').2 = Game.moves (game p).2 /\
    Game.victory (game p').2 = false /\
    Game.first_selection (game p').2 = None /\
    Game.second_selection (game p').2 = None /\
    Game.wait_time (game p').2 = 0.
Proof.
  intros Hrun Hv Hsh. unfold main in *.
  destruct (start shuffle d) as [p0| |]; [|done|done].
  rewrite frames_app, Hrun. cbn [frames frame handle_events handle_event].
  rewrite Hv. cbn [negb]. eexists. 
  destruct (init_fresh (shuffle' 0%nat) [] Hsh) as (s0 & Hs0 & _).
  destruct (load_saved (game p) s0) as (s' & Hload & Ht & Hm & Hvic & Hsel).
  exists (mk_process (Game.save_game (game p) (disk p)) s' 1).
  split; [done|]. split; [done|]. split.
  { unfold start. rewrite Hs0. cbn [frames disk]. unfold Game.save_game.
    by rewrite Hload. }
  cbn [game]. rewrite Ht, layout_settled, face_settled.
  split; [done|]. split; [done|]. split; [done|]. split; [congruence|]. done.
Qed.

Lemma quit_then_relaunch_resumes_witness :
  exists q p',
    main example_shuffle None (example_pause ++ [[QUIT]]) = Exited q /\
    main example_shuffle (disk q) [] = Running p' /\
    face <$> tiles (game p') = face <$> tiles (game example_paused).
Proof.
  destruct (quit_then_relaunch_resumes example_shuffle example_shuffle None
              example_pause [] [] example_paused)
    as (q & p' & H1 & _ & H2 & _ & H3 & _).
  - vm_compute. reflexivity.
  - reflexivity.
  - done.
  - exists q, p'. split; [exact H1|]. split; [exact H2 | exact H3].
Defined.

(** ** A won game and the save file *)

(** X18.  When [main] is left with a won game and the S key was never
    pressed, the save file is the one [main] was started with: a won game
    is not saved on quit, and an older save is not removed. *)
Theorem won_game_keeps_old_save (shuffle : nat -> list string) (d : storage)
    (fs : list (list input)) (q : process) :
  KEYDOWN K_s ∉ concat fs ->
  main shuffle d fs = Exited q ->
  Game.victory (game q).2 = true ->
  disk q = d.
Proof.
  intros Hs Hq Hv.
  assert (status_sat (fun p => disk p = d)
            (fun p => Game.victory (game p).2 = true -> disk p = d) True
            (main shuffle d fs)) as H.
  { apply (main_sat shuffle (fun e => e <> KEYDOWN K_s)).
    - intros e p He Hp. destruct e as [|button pos|[| | |]|]; cbn [handle_event];
        try done.
      + cbn [status_sat game disk]. by intros ->.
      + by destruct (button =? 1).
      + unfold new_game. by destruct (Game.init _ _).
    - done.
    - unfold start. by destruct (Game.init _ _).
    - apply list.Forall_forall. by intros e He ->. }
  rewrite Hq in H. by apply H.
Qed.

Lemma won_game_keeps_old_save_witness : disk example_won = None.
Proof.
  apply (won_game_keeps_old_save example_shuffle None example_session
           example_won).
  - intros H. vm_compute in H.
    repeat (apply elem_of_cons in H as [H|H]; [discriminate H|]).
    by apply elem_of_nil in H.
  - vm_compute. reflexivity.
  - reflexivity.
Defined.
